(** * lifegoals2050: a verification model of the deterministic fortune generator

    The development embeds [src/lifegoals2050.py] in Rocq and states the
    properties of its seed derivation, weighted sampler, rule engine,
    Monte Carlo aggregator, reroll and renderer.

    Modelling conventions.
    - A Python [str] is a Rocq [string] holding its UTF-8 bytes; [.encode()]
      is therefore the byte list of the string.  A [str] that has no UTF-8
      encoding (one with a lone surrogate, on which [.encode()] raises
      UnicodeEncodeError) is not a value of the model.  [strip] and [lower]
      act on the ASCII range (the code points below 128), other bytes pass
      through: they are Python's [strip] and [lower] on ASCII strings.
    - A trait item is a Python [dict] with a fixed set of possible keys; it is
      a record of optional fields ([None] = key absent), [{}] is the record
      with no field.  Dict objects live in a store ([heap]) and are referred
      to by their address, so that aliasing between the tables, the pools and a
      pick-set is visible.
    - [float(n)] raises OverflowError exactly when the int [n] has no finite
      nearest binary64 ([float_overflows]).  The sums of weights are formed
      in exact rational arithmetic ([Q]): they are the sums binary64 forms
      as long as the non-negative weights add up to at most 2^53
      ([exact_sums]), which the statements that depend on the value of a sum
      assume; the weights of the tables are integers below 20.
    - [hashlib.sha256] is implemented (FIPS 180-4); [random.Random] is an
      interface ([RandomSource]): a seeding function and the two draws the
      program uses, [uniform] and (inside [shuffle]) [_randbelow], taken
      from the library as they are. *)

From Stdlib Require Import ZArith QArith Qminmax Ascii Lia Lqa.
From stdpp Require Import gmap strings list fin_maps pretty.

Local Open Scope Z_scope.

(** ** Strings *)

Module Str.

(** The ASCII characters [str.strip()] removes: TAB, LF, VT, FF, CR, the four
    separators FS, GS, RS, US, and the space. *)
Definition is_space (c : ascii) : bool :=
  let n := N_of_ascii c in
  ((9 <=? n) && (n <=? 13) || (28 <=? n) && (n <=? 32))%N.

Definition lower_ascii (c : ascii) : ascii :=
  let n := N_of_ascii c in
  if ((65 <=? n) && (n <=? 90))%N then ascii_of_N (n + 32) else c.

Fixpoint lower (s : string) : string :=
  match s with
  | EmptyString => EmptyString
  | String c s' => String (lower_ascii c) (lower s')
  end.

Fixpoint lstrip (s : string) : string :=
  match s with
  | EmptyString => EmptyString
  | String c s' => if is_space c then lstrip s' else s
  end.

Definition rstrip (s : string) : string := String.rev (lstrip (String.rev s)).

Definition strip (s : string) : string := rstrip (lstrip s).

(** [s.encode("utf-8")] *)
Fixpoint encode (s : string) : list Z :=
  match s with
  | EmptyString => []
  | String c s' => Z.of_N (N_of_ascii c) :: encode s'
  end.

(** [s * n] *)
Fixpoint repeat (s : string) (n : nat) : string :=
  match n with
  | O => EmptyString
  | S n' => s +:+ repeat s n'
  end.

(** The code points of a string: a byte [10xxxxxx] continues the code point
    before it. *)
Definition is_continuation (c : ascii) : bool :=
  let n := N_of_ascii c in ((128 <=? n) && (n <? 192))%N.

Fixpoint chars_go (cur : string) (s : string) : list string :=
  match s with
  | EmptyString => [String.rev cur]
  | String c s' =>
      if is_continuation c then chars_go (String c cur) s'
      else String.rev cur :: chars_go (String c EmptyString) s'
  end.

Definition chars (s : string) : list string :=
  match s with
  | EmptyString => []
  | String c s' => chars_go (String c EmptyString) s'
  end.

(** [len(s)] *)
Definition len (s : string) : nat := length (chars s).

Definition is_upper (c : ascii) : bool :=
  let n := N_of_ascii c in ((65 <=? n) && (n <=? 90))%N.
Definition is_lower (c : ascii) : bool :=
  let n := N_of_ascii c in ((97 <=? n) && (n <=? 122))%N.
Definition upper_ascii (c : ascii) : ascii :=
  if is_lower c then ascii_of_N (N_of_ascii c - 32) else c.

(** [s.title()]: a cased character is upper-cased after an uncased one and
    lower-cased after a cased one. *)
Fixpoint title_go (previous_is_cased : bool) (s : string) : string :=
  match s with
  | EmptyString => EmptyString
  | String c s' =>
      if is_lower c then
        String (if previous_is_cased then c else upper_ascii c) (title_go true s')
      else if is_upper c then
        String (if previous_is_cased then lower_ascii c else c) (title_go true s')
      else String c (title_go false s')
  end.
Definition title (s : string) : string := title_go false s.

(** [s.split()[0]] for a stripped, non-empty [s]: the characters before the
    first white space. *)
Fixpoint first_word (s : string) : string :=
  match s with
  | EmptyString => EmptyString
  | String c s' => if is_space c then EmptyString else String c (first_word s')
  end.

Definition newline : string := String (ascii_of_N 10) EmptyString.

(** [sep.join(l)] *)
Fixpoint join (sep : string) (l : list string) : string :=
  match l with
  | [] => EmptyString
  | [x] => x
  | x :: rest => x +:+ sep +:+ join sep rest
  end.

End Str.

(** ** SHA-256 *)

Module SHA256.

Definition w32 (x : Z) : Z := x mod 2 ^ 32.
Definition add32 (x y : Z) : Z := w32 (x + y).
Definition rotr (n x : Z) : Z :=
  Z.lor (Z.shiftr x n) (w32 (Z.shiftl x (32 - n))).
Definition not32 (x : Z) : Z := Z.lxor x 0xffffffff.

Definition Ch (x y z : Z) : Z := Z.lxor (Z.land x y) (Z.land (not32 x) z).
Definition Maj (x y z : Z) : Z :=
  Z.lxor (Z.lxor (Z.land x y) (Z.land x z)) (Z.land y z).
Definition Sigma0 (x : Z) : Z := Z.lxor (Z.lxor (rotr 2 x) (rotr 13 x)) (rotr 22 x).
Definition Sigma1 (x : Z) : Z := Z.lxor (Z.lxor (rotr 6 x) (rotr 11 x)) (rotr 25 x).
Definition sigma0 (x : Z) : Z := Z.lxor (Z.lxor (rotr 7 x) (rotr 18 x)) (Z.shiftr x 3).
Definition sigma1 (x : Z) : Z := Z.lxor (Z.lxor (rotr 17 x) (rotr 19 x)) (Z.shiftr x 10).

(** The constants of FIPS 180-4, section 4.2.2 and 5.3.3: the first 32 bits of
    the fractional parts of the cube roots of the first 64 primes, and of the
    square roots of the first 8. *)
Definition is_prime (n : Z) : bool :=
  (1 <? n) && forallb (fun d => negb (n mod d =? 0))
                      (List.filter (fun d => d * d <=? n) (map Z.of_nat (seq 2 20))).

Definition primes : list Z :=
  Eval vm_compute in List.filter is_prime (map Z.of_nat (seq 2 310)).

(** The largest [x + y] with [y < 2 ^ b] and [(x + y) ^ 3 <= n]. *)
Fixpoint cube_root_from (n : Z) (b : nat) (x : Z) : Z :=
  match b with
  | O => x
  | S b' =>
      let y := x + 2 ^ Z.of_nat b' in
      cube_root_from n b' (if y ^ 3 <=? n then y else x)
  end.

Definition K : list Z :=
  Eval vm_compute in map (fun p => w32 (cube_root_from (p * 2 ^ 96) 40 0)) primes.

Definition H0 : list Z :=
  Eval vm_compute in map (fun p => w32 (Z.sqrt (p * 2 ^ 64))) (take 8 primes).

(** One round: [w] is the window W[t..t+15] of the message schedule, [st] the
    eight working variables a..h. *)
Definition round (k : Z) (ws : list Z * list Z) : list Z * list Z :=
  let '(w, st) := ws in
  let wt := nth 0 w 0 in
  match st with
  | [a; b; c; d; e; f; g; h] =>
      let t1 := add32 (add32 (add32 (add32 h (Sigma1 e)) (Ch e f g)) k) wt in
      let t2 := add32 (Sigma0 a) (Maj a b c) in
      let wnew := add32 (add32 (add32 (sigma1 (nth 14 w 0)) (nth 9 w 0))
                               (sigma0 (nth 1 w 0))) wt in
      (tl w ++ [wnew], [add32 t1 t2; a; b; c; add32 d t1; e; f; g])
  | _ => ws
  end.

Definition compress (h : list Z) (block : list Z) : list Z :=
  let '(_, st) := fold_left (fun ws k => round k ws) K (block, h) in
  zip_with add32 h st.

(** Big-endian 32-bit words of a byte list whose length is a multiple of 4. *)
Fixpoint words (n : nat) (bs : list Z) : list Z :=
  match n with
  | O => []
  | S n' =>
      match bs with
      | b0 :: b1 :: b2 :: b3 :: rest =>
          (((b0 * 256 + b1) * 256 + b2) * 256 + b3) :: words n' rest
      | _ => []
      end
  end.

Fixpoint blocks (n : nat) (h : list Z) (ws : list Z) : list Z :=
  match n with
  | O => h
  | S n' => blocks n' (compress h (take 16 ws)) (drop 16 ws)
  end.

Fixpoint be_bytes (n : nat) (x : Z) : list Z :=
  match n with
  | O => []
  | S n' => be_bytes n' (x / 256) ++ [x mod 256]
  end.

Definition pad (msg : list Z) : list Z :=
  let l := Z.of_nat (length msg) in
  msg ++ [0x80] ++ replicate (Z.to_nat ((55 - l) mod 64)) 0 ++ be_bytes 8 (8 * l).

(** [int(hashlib.sha256(msg).hexdigest(), 16)] *)
Definition digest_int (msg : list Z) : Z :=
  let p := pad msg in
  let h := blocks (length p / 64) H0 (words (length p / 4) p) in
  fold_left (fun acc w => acc * 2 ^ 32 + w) h 0.

End SHA256.

(** ** Trait items and the object store *)

(** A trait item: the keys a dict of the content pack can carry. *)
Record item := Item {
  i_id : option string;
  i_weight : option Z;
  i_label : option string;
  i_tags : option (list string);
  i_prestige : option Z;
  i_risk : option Z;
  i_impact : option string;
  i_level : option Z;
  i_price : option string;
  i_sustainability : option Z;
  i_space : option string
}.

(** [{}] *)
Definition empty_item : item :=
  Item None None None None None None None None None None None.

Global Instance item_inhabited : Inhabited item := populate empty_item.

(** [bool(d)]: a dict is true when it has a key. *)
Definition truthy (d : item) : bool :=
  match d with
  | Item None None None None None None None None None None None => false
  | _ => true
  end.

(** [d["weight"] = w] *)
Definition set_weight (w : Z) (d : item) : item :=
  Item (i_id d) (Some w) (i_label d) (i_tags d) (i_prestige d) (i_risk d)
       (i_impact d) (i_level d) (i_price d) (i_sustainability d) (i_space d).

(** [d.get("tags", [])] *)
Definition tags_of (d : item) : list string := default [] (i_tags d).

Abbreviation loc := nat.
Abbreviation heap := (list item).

Inductive exn := KeyError (key : string) | OverflowError.

Inductive result (A : Type) :=
| Ok (a : A)
| Raise (e : exn).
Arguments Ok {A} a.
Arguments Raise {A} e.

(** A computation reads and updates the store and returns or raises; the
    store survives a raise. *)
Definition M (A : Type) : Type := heap → result A * heap.

Global Instance M_ret : MRet M := λ A a h, (Ok a, h).
Global Instance M_bind : MBind M := λ A B k m h,
  match m h with
  | (Ok a, h') => k a h'
  | (Raise e, h') => (Raise e, h')
  end.

Definition raise {A} (e : exn) : M A := λ h, (Raise e, h).

(** A new dict object. *)
Definition new_dict (d : item) : M loc := λ h, (Ok (length h), h ++ [d]).

(** The dict a reference points to. *)
Definition deref (l : loc) : M item := λ h, (Ok (h !!! l), h).

(** [it["id"]] *)
Definition getitem_id (l : loc) : M string :=
  d ← deref l;
  match i_id d with Some s => mret s | None => raise (KeyError "id") end.

(** [it["weight"]] *)
Definition getitem_weight (l : loc) : M Z :=
  d ← deref l;
  match i_weight d with Some w => mret w | None => raise (KeyError "weight") end.

(** [it["label"]] *)
Definition getitem_label (l : loc) : M string :=
  d ← deref l;
  match i_label d with Some s => mret s | None => raise (KeyError "label") end.

(** [it["weight"] = w] *)
Definition setitem_weight (l : loc) (w : Z) : M unit :=
  λ h, (Ok tt, <[l := set_weight w (h !!! l)]> h).

(** [for it in pool: body(it)] *)
Fixpoint for_each (body : loc → M unit) (pool : list loc) : M unit :=
  match pool with
  | [] => mret tt
  | it :: rest => _ ← body it; for_each body rest
  end.

(** [[dict(x) for x in items]] *)
Fixpoint copy_pool (items : list loc) : M (list loc) :=
  match items with
  | [] => mret []
  | x :: rest =>
      d ← deref x;
      c ← new_dict d;
      cs ← copy_pool rest;
      mret (c :: cs)
  end.

(** ** Content pack *)

Inductive Domain := Career | Car | House | Relationship | Fame.

Global Instance Domain_eq_dec : EqDecision Domain.
Proof. solve_decision. Defined.

Definition DOMAINS : list Domain := [Career; Car; House; Relationship; Fame].

Definition domain_name (d : Domain) : string :=
  match d with
  | Career => "career"
  | Car => "car"
  | House => "house"
  | Relationship => "relationship"
  | Fame => "fame"
  end.

Definition career_item (id : string) (weight prestige risk : Z)
    (tags : list string) (label impact : string) : item :=
  Item (Some id) (Some weight) (Some label) (Some tags) (Some prestige)
       (Some risk) (Some impact) None None None None.

Definition car_item (id : string) (weight : Z) (price : string)
    (sustainability : Z) (tags : list string) (label : string) : item :=
  Item (Some id) (Some weight) (Some label) (Some tags) None None None None
       (Some price) (Some sustainability) None.

Definition house_item (id : string) (weight : Z) (price space : string)
    (tags : list string) (label : string) : item :=
  Item (Some id) (Some weight) (Some label) (Some tags) None None None None
       (Some price) None (Some space).

Definition relationship_item (id : string) (weight : Z) (label : string) : item :=
  Item (Some id) (Some weight) (Some label) None None None None None None None None.

Definition fame_item (id : string) (weight level : Z) (label : string) : item :=
  Item (Some id) (Some weight) (Some label) None None None None (Some level)
       None None None.

Definition career_table : list item :=
  [ career_item "ai_researcher" 9 9 5 ["tech"; "research"] "AI Researcher"
      "breakthroughs in human–AI collaboration";
    career_item "creative_director" 7 7 4 ["creative"] "Creative Director"
      "genre-bending campaigns and IP worlds";
    career_item "founder" 8 8 9 ["business"; "risk"] "Startup Founder"
      "a profitable mission-driven company";
    career_item "product_lead" 8 8 6 ["tech"; "product"] "Product Lead"
      "platforms used by millions";
    career_item "cinematic_vfx" 6 7 6 ["creative"; "film"] "Cinematic VFX Director"
      "award-winning visuals";
    career_item "wildcard_nomad" 3 5 7 ["travel"; "gig"] "Digital Nomad"
      "projects across continents";
    career_item "data_ethicist" 5 7 3 ["tech"; "policy"] "Data Ethicist"
      "safer, fairer AI systems";
    career_item "edu_creator" 6 6 5 ["creator"; "edu"] "Edu Creator"
      "teaching millions online" ].

Definition car_table : list item :=
  [ car_item "solid_ev" 10 "mid" 8 ["ev"] "reliable EV";
    car_item "ultra_lux_ev" 3 "ultra" 8 ["ev"; "lux"] "ultra-luxury EV";
    car_item "retro_mod" 4 "mid_low" 5 ["style"] "retro-modern ride";
    car_item "no_car_city" 6 "none" 10 ["urban"] "no personal car (city mobility)";
    car_item "smart_scooter" 5 "low" 9 ["urban"; "ev"] "smart e-scooter + transit" ].

Definition house_table : list item :=
  [ house_item "smart_apartment" 10 "mid" "mid" ["urban"; "smart"] "smart apartment";
    house_item "skyline_penthouse" 2 "ultra" "mid" ["lux"] "skyline penthouse";
    house_item "villa_coastal" 3 "high" "high" ["coast"] "coastal villa";
    house_item "tiny_home" 4 "low" "low" ["minimal"] "tiny home";
    house_item "studio_loft" 6 "mid_low" "mid_low" ["urban"; "creative"] "studio loft" ].

Definition relationship_table : list item :=
  [ relationship_item "married_kids" 7 "married with kids";
    relationship_item "married_no_kids" 6 "married, no kids";
    relationship_item "partnered" 6 "partnered";
    relationship_item "solo" 5 "solo";
    relationship_item "global_long_distance" 2 "global long-distance" ].

Definition fame_table : list item :=
  [ fame_item "local_known" 8 3 "locally known";
    fame_item "industry_respected" 8 5 "industry-respected";
    fame_item "viral_creator" 4 7 "viral creator";
    fame_item "global_icon" 1 10 "global icon";
    fame_item "low_profile" 6 1 "low profile" ].

(** The store when the module has been loaded: the dict objects of [TRAITS],
    in the order of the source. *)
Definition TRAITS_heap : heap :=
  career_table ++ car_table ++ house_table ++ relationship_table ++ fame_table.

(** [TRAITS[d]]: the list of (references to) the dicts of a domain. *)
Definition TRAITS (d : Domain) : list loc :=
  match d with
  | Career => seq 0 8
  | Car => seq 8 5
  | House => seq 13 5
  | Relationship => seq 18 5
  | Fame => seq 23 5
  end.

Definition MICRO_FACTS : gmap string (list string) :=
  list_to_map
    [ ("tech", ["holds 12 patents"; "keynoted at a global dev summit";
                "open-sourced a popular toolkit"]);
      ("research", ["published in top journals"; "mentored young scholars";
                    "led a cross-lab consortium"]);
      ("creative", ["curated a traveling exhibition";
                    "designed an award-winning brand system"; "scored a streaming hit"]);
      ("film", ["won a VFX guild award"; "pioneered real-time virtual production";
                "helmed a festival favorite"]);
      ("business", ["backed climate-positive suppliers"; "bootstrapped to profitability";
                    "exited a venture gracefully"]);
      ("creator", ["hit 100M monthly views"; "launched a community fund";
                   "toured three continents"]);
      ("urban", ["bikes on car-free weekdays"; "hosts maker nights";
                 "chairs the neighborhood council"]);
      ("minimal", ["lives with 42 carefully chosen items"; "donates yearly to libraries";
                   "keeps a zero-waste kitchen"]);
      ("coast", ["surfs at sunrise"; "restores coral reefs"; "hosts beach cleanups"]);
      ("smart", ["home runs on local solar"; "uses edge-AI for safety";
                 "digital twin optimizes energy"]) ].

(** ** Utilities *)

Definition seed_from (name timeline : string) : Z :=
  let key := Str.encode (Str.lower (Str.strip name) +:+ "::"
                         +:+ Str.lower (Str.strip timeline)) in
  SHA256.digest_int key mod (2 ^ 32 - 1).

(** The seed [rng_for] hands to [random.Random]. *)
Definition rng_seed (name timeline salt : string) : Z :=
  let base := seed_from name timeline in
  let salted := SHA256.digest_int (Str.encode (pretty base +:+ ":" +:+ salt)) in
  salted mod (2 ^ 32 - 1).

(** [random.Random]: seeding, [uniform(a, b)] and [_randbelow(n)].  The
    library computes [uniform(a, b)] as [a + (b - a) * self.random()] in
    binary64; the float it returns is taken as it is. *)
Class RandomSource := {
  Rng : Type;
  Random : Z → Rng;
  uniform : Rng → Q → Q → Q * Rng;
  randbelow : Rng → nat → nat * Rng
}.

(** [fame_meter] *)
Definition fame_meter (level : Z) : string :=
  let level := Z.max 0 (Z.min level 10) in
  Str.repeat "★" (Z.to_nat level) +:+ Str.repeat "☆" (Z.to_nat (10 - level)).

(** [float(n)] of an int: the nearest binary64, and OverflowError when that
    is not finite, which is when [|n| >= 2^1024 - 2^970] (the largest finite
    binary64 is [2^1024 - 2^971], and ties go to the even neighbour). *)
Definition float_limit : Z := 2 ^ 1024 - 2 ^ 970.

Definition float_overflows (n : Z) : bool := float_limit <=? Z.abs n.

Definition float (n : Z) : M Q :=
  if float_overflows n then raise OverflowError else mret (inject_Z n).

(** [max(0.0, float(i.get(key, 0)))] *)
Definition weight_of (d : item) : M Q :=
  x ← float (default 0 (i_weight d));
  mret (Qmax 0 x).

Definition Qlt_bool (x y : Q) : bool := negb (Qle_bool y x).

(** [rng.shuffle(x)]: for i from len(x)-1 down to 1, swap x[i] and
    x[randbelow(i+1)]. *)
Definition swap {A} (i j : nat) (x : list A) : list A :=
  match x !! i, x !! j with
  | Some a, Some b => <[j := a]> (<[i := b]> x)
  | _, _ => x
  end.

(** ** Rule engine *)

Record Picks := mkPicks {
  career : loc;
  car : loc;
  house : loc;
  relationship : loc;
  fame : loc;
  trace : list string
}.

(** [getattr(p, d)] for a domain [d] *)
Definition getattr (p : Picks) (d : Domain) : loc :=
  match d with
  | Career => career p
  | Car => car p
  | House => house p
  | Relationship => relationship p
  | Fame => fame p
  end.

Definition set_car (p : Picks) (l : loc) : Picks :=
  mkPicks (career p) l (house p) (relationship p) (fame p) (trace p).
Definition set_house (p : Picks) (l : loc) : Picks :=
  mkPicks (career p) (car p) l (relationship p) (fame p) (trace p).
Definition set_fame (p : Picks) (l : loc) : Picks :=
  mkPicks (career p) (car p) (house p) (relationship p) l (trace p).
(** [p.trace.append(t)] *)
Definition trace_append (p : Picks) (t : string) : Picks :=
  mkPicks (career p) (car p) (house p) (relationship p) (fame p) (trace p ++ [t]).

(** [if it["id"] in ids: it["weight"] = f(it["weight"])] *)
Definition adjust_by_id (ids : list string) (f : Z → Z) (it : loc) : M unit :=
  id ← getitem_id it;
  if bool_decide (id ∈ ids) then
    w ← getitem_weight it;
    setitem_weight it (f w)
  else mret tt.

(** [if tag in it.get("tags", []): it["weight"] = f(it["weight"])] *)
Definition adjust_by_tag (tag : string) (f : Z → Z) (it : loc) : M unit :=
  d ← deref it;
  if bool_decide (tag ∈ tags_of d) then
    w ← getitem_weight it;
    setitem_weight it (f w)
  else mret tt.

Definition luxury_boost_msg : string := "car: luxury boost (prestige ≥8 & fame ≥7)".
Definition luxury_damped_msg : string :=
  "car: luxury damped (prestige/fame below threshold)".
Definition urban_mobility_msg : string := "car: urban mobility boost".
Definition compact_living_msg : string := "house: compact-living boost (solo)".
Definition urban_access_msg : string := "house: urban access boost (city mobility)".
Definition penthouse_msg : string := "house: penthouse boost (prestige & fame)".
Definition fame_nudge_msg : string := "fame: creator/founder nudge".

(** [counts[d][key] = counts[d].get(key, 0) + 1] *)
Definition tally (counts : gmap string (gmap string Z)) (d key : string)
    : result (gmap string (gmap string Z)) :=
  match counts !! d with
  | Some c => Ok (<[d := <[key := default 0 (c !! key) + 1]> c]> counts)
  | None => Raise (KeyError d)
  end.

(** The sum of the counts of one domain's tally. *)
Definition tally_sum (c : gmap string Z) : Z :=
  map_fold (λ _ v acc, v + acc) 0 c.

(** [d.get("label") or d.get("id")], as an f-string prints it. *)
Definition short_label (d : item) : string :=
  let id_or_none :=
    match i_id d with Some s => s | None => "None" end in
  match i_label d with
  | Some l => if bool_decide (l = "") then id_or_none else l
  | None => id_or_none
  end.

(** [d.get(key, '?')] of an integer field, as an f-string prints it. *)
Definition get_or_unknown (v : option Z) : string :=
  match v with Some n => pretty n | None => "?" end.

(** [explanation]: one line for each pick, then one for each trace entry. *)
Definition explanation (p : Picks) : M (list string) :=
  career_id ← getitem_id (career p);
  career_d ← deref (career p);
  car_id ← getitem_id (car p);
  house_id ← getitem_id (house p);
  rel_id ← getitem_id (relationship p);
  fame_id ← getitem_id (fame p);
  fame_d ← deref (fame p);
  mret ([ "career: " +:+ career_id
            +:+ " (prestige=" +:+ get_or_unknown (i_prestige career_d)
            +:+ ", risk=" +:+ get_or_unknown (i_risk career_d) +:+ ")";
          "car: " +:+ car_id;
          "house: " +:+ house_id;
          "relationship: " +:+ rel_id;
          "fame: " +:+ fame_id
            +:+ " (level=" +:+ get_or_unknown (i_level fame_d) +:+ ")" ]
        ++ ((λ t, "rule → " +:+ t) <$> trace p)).

Section Program.

Context {RS : RandomSource}.

(** The iteration order of a [set] of strings.  CPython lays a set out by
    the hashes of its elements, and the hash of a [str] is salted per
    process, so the order is a parameter of the run. *)
Variable set_order : gset string → list string.

(** [textwrap.fill(s, width=84)] *)
Variable wrap : string → string.

Definition rng_for (name timeline salt : string) : Rng :=
  Random (rng_seed name timeline salt).

Fixpoint shuffle_go {A} (rng : Rng) (i : nat) (x : list A) : list A * Rng :=
  match i with
  | O => (x, rng)
  | S i' =>
      let '(j, rng') := randbelow rng (S i) in
      shuffle_go rng' i' (swap i j x)
  end.

Definition shuffle {A} (rng : Rng) (x : list A) : list A * Rng :=
  shuffle_go rng (length x - 1) x.

(** [sum(max(0.0, float(i.get(key, 0))) for i in items)] *)
Fixpoint sum_weights (acc : Q) (items : list loc) : M Q :=
  match items with
  | [] => mret acc
  | i :: rest =>
      d ← deref i;
      w ← weight_of d;
      sum_weights (acc + w)%Q rest
  end.

(** The scan of [weighted_choice]: [Some it] when the loop returns [it],
    [None] when it falls through. *)
Fixpoint scan (pick c : Q) (items : list loc) : M (option loc) :=
  match items with
  | [] => mret None
  | it :: rest =>
      d ← deref it;
      w ← weight_of d;
      let c := (c + w)%Q in
      if Qle_bool pick c then mret (Some it) else scan pick c rest
  end.

Definition weighted_choice (rng : Rng) (items : list loc) : M (loc * Rng) :=
  total ← sum_weights 0 items;
  let '(pick, rng) := if Qlt_bool 0 total then uniform rng 0 total else (0%Q, rng) in
  r ← scan pick 0 items;
  match r with
  | Some it => mret (it, rng)
  | None =>
      match last items with
      | Some it => mret (it, rng)
      | None => e ← new_dict empty_item; mret (e, rng)
      end
  end.

(** The rule engine, block by block; [apply_rules] runs the blocks in the
    order of the source. *)

(** "Adjust car pool": the prestige/fame rule and the urban nudge. *)
Definition adjust_car_pool (p : Picks) (prestige fame_level : Z)
    : M (Picks * list loc) :=
  car_pool ← copy_pool (TRAITS Car);
  p ← (if (8 <=? prestige) && (7 <=? fame_level) then
         _ ← for_each (adjust_by_id ["ultra_lux_ev"] (λ w, w + 3)) car_pool;
         mret (trace_append p luxury_boost_msg)
       else
         (* Slightly damp ultra luxury *)
         _ ← for_each (adjust_by_id ["ultra_lux_ev"] (λ w, Z.max 1 (w - 2))) car_pool;
         mret (trace_append p luxury_damped_msg));
  (* If urban tags in current house or career, nudge no_car_city/scooter *)
  house_d ← deref (house p);
  career_d ← deref (career p);
  let is_urbanish :=
    bool_decide ("urban" ∈ tags_of house_d) || bool_decide ("tech" ∈ tags_of career_d) in
  p ← (if is_urbanish then
         _ ← for_each (adjust_by_id ["no_car_city"; "smart_scooter"] (λ w, w + 2)) car_pool;
         mret (trace_append p urban_mobility_msg)
       else mret p);
  mret (p, car_pool).

(** "Adjust house pool": the compact-living, urban-access and penthouse
    nudges. *)
Definition adjust_house_pool (p : Picks) (rel_id : string) (prestige fame_level : Z)
    : M (Picks * list loc) :=
  house_pool ← copy_pool (TRAITS House);
  p ← (if bool_decide (rel_id = "solo") then
         _ ← for_each (adjust_by_id ["tiny_home"; "studio_loft"] (λ w, w + 3)) house_pool;
         mret (trace_append p compact_living_msg)
       else mret p);
  car_id ← getitem_id (car p);
  p ← (if bool_decide (car_id ∈ ["no_car_city"; "smart_scooter"]) then
         _ ← for_each (adjust_by_tag "urban" (λ w, w + 2)) house_pool;
         mret (trace_append p urban_access_msg)
       else mret p);
  p ← (if (8 <=? prestige) && (7 <=? fame_level) then
         _ ← for_each (adjust_by_id ["skyline_penthouse"] (λ w, w + 2)) house_pool;
         mret (trace_append p penthouse_msg)
       else mret p);
  mret (p, house_pool).

(** ["creator" in p.career.get("tags", []) or p.career["id"] in (...)] *)
Definition is_creator_or_founder (p : Picks) : M bool :=
  career_d ← deref (career p);
  if bool_decide ("creator" ∈ tags_of career_d) then mret true
  else
    career_id ← getitem_id (career p);
    mret (bool_decide (career_id ∈ ["founder"; "cinematic_vfx"])).

(** "Fame interplay with career". *)
Definition fame_interplay (p : Picks) (rng : Rng) : M (Picks * Rng) :=
  fame_pool ← copy_pool (TRAITS Fame);
  fires ← is_creator_or_founder p;
  if fires : bool then
    _ ← for_each (adjust_by_id ["viral_creator"; "industry_respected"] (λ w, w + 1))
                 fame_pool;
    let p := trace_append p fame_nudge_msg in
    '(f, rng) ← weighted_choice rng fame_pool;
    mret (set_fame p f, rng)
  else mret (p, rng).

Definition apply_rules (p : Picks) (rng : Rng) : M (Picks * Rng) :=
  career_d ← deref (career p);
  let prestige := default 5 (i_prestige career_d) in
  let risk := default 5 (i_risk career_d) in
  fame_d ← deref (fame p);
  let fame_level := default 1 (i_level fame_d) in
  rel_id ← getitem_id (relationship p);
  '(p, car_pool) ← adjust_car_pool p prestige fame_level;
  (* Re-pick car with adjusted weights *)
  '(c, rng) ← weighted_choice rng car_pool;
  let p := set_car p c in
  '(p, house_pool) ← adjust_house_pool p rel_id prestige fame_level;
  '(h, rng) ← weighted_choice rng house_pool;
  let p := set_house p h in
  fame_interplay p rng.

(** ** Prediction and narrative *)

(** [lock.get(key) or weighted_choice(rng, items)] *)
Definition locked_or (lock : gmap string loc) (key : string) (rng : Rng)
    (items : list loc) : M (loc * Rng) :=
  match lock !! key with
  | Some l =>
      d ← deref l;
      if truthy d then mret (l, rng) else weighted_choice rng items
  | None => weighted_choice rng items
  end.

Definition pick_all (name timeline : string) (lock : gmap string loc)
    (salt : string) : M Picks :=
  let rng := rng_for name timeline salt in
  '(career, rng) ← locked_or lock "career" rng (TRAITS Career);
  '(fame, rng) ← locked_or lock "fame" rng (TRAITS Fame);
  '(relationship, rng) ← locked_or lock "relationship" rng (TRAITS Relationship);
  (* temp car/house; final after rules *)
  '(car, rng) ← locked_or lock "car" rng (TRAITS Car);
  '(house, rng) ← locked_or lock "house" rng (TRAITS House);
  let p := mkPicks career car house relationship fame [] in
  '(p, _) ← apply_rules p rng;
  mret p.

Definition microfacts_for (p : Picks) (rng : Rng) (k : nat) : M (list string) :=
  career_d ← deref (career p);
  house_d ← deref (house p);
  car_d ← deref (car p);
  let tag_pool : gset string :=
    list_to_set (tags_of career_d) ∪ list_to_set (tags_of house_d)
      ∪ list_to_set (tags_of car_d) in
  let options :=
    foldl (λ options t, options ++ default [] (MICRO_FACTS !! t)) []
          (set_order tag_pool) in
  let '(options, _) := shuffle rng options in
  mret (take k options).

(** [("Highlights: " + ", ".join(facts) + ".") if facts else ""] *)
Definition highlights (facts : list string) : string :=
  match facts with
  | [] => ""
  | _ => "Highlights: " +:+ Str.join ", " facts +:+ "."
  end.

Definition narrative (name : string) (p : Picks) (timeline : string) : M string :=
  let first :=
    if bool_decide (Str.strip name = "") then "You"
    else Str.title (Str.first_word (Str.strip name)) in
  fame_d ← deref (fame p);
  let fame_bar := fame_meter (default 1 (i_level fame_d)) in
  career_d ← deref (career p);
  let line1 := "By 2050, " +:+ first +:+ " is a " +:+ short_label career_d
               +:+ " known for " +:+ default "meaningful work" (i_impact career_d)
               +:+ "." in
  house_d ← deref (house p);
  car_d ← deref (car p);
  let line2 := "They live in a " +:+ short_label house_d
               +:+ " and get around with " +:+ short_label car_d +:+ "." in
  rel_label ← getitem_label (relationship p);
  fame_label ← getitem_label (fame p);
  let line3 := "Relationship status: " +:+ rel_label +:+ ". Fame: " +:+ fame_label
               +:+ " (" +:+ fame_bar +:+ ")." in
  let rng := rng_for name timeline "facts" in
  facts ← microfacts_for p rng 2;
  let line4 := highlights facts in
  mret (Str.join Str.newline [wrap line1; wrap line2; wrap line3; wrap line4]).

(** ** Monte Carlo *)

Fixpoint tally_all (counts : gmap string (gmap string Z)) (p : Picks)
    (ds : list Domain) : M (gmap string (gmap string Z)) :=
  match ds with
  | [] => mret counts
  | d :: rest =>
      key ← getitem_id (getattr p d);
      match tally counts (domain_name d) key with
      | Ok counts => tally_all counts p rest
      | Raise e => raise e
      end
  end.

Fixpoint monte_carlo_loop (name timeline : string) (trials : list nat)
    (counts : gmap string (gmap string Z)) : M (gmap string (gmap string Z)) :=
  match trials with
  | [] => mret counts
  | i :: rest =>
      p ← pick_all name timeline ∅ ("mc:" +:+ pretty (Z.of_nat i));
      counts ← tally_all counts p DOMAINS;
      monte_carlo_loop name timeline rest counts
  end.

Definition monte_carlo (name timeline : string) (n : Z)
    : M (gmap string (gmap string Z)) :=
  let counts : gmap string (gmap string Z) :=
    list_to_map ((λ d, (domain_name d, ∅)) <$> DOMAINS) in
  monte_carlo_loop name timeline (seq 0 (Z.to_nat n)) counts.

(** ** Rerolls *)

Definition reroll_section (name timeline domain : string) (base : Picks) : M Picks :=
  let locks : gmap string loc :=
    list_to_map ((λ d, (domain_name d, getattr base d))
                   <$> filter (λ d, domain_name d ≠ domain) DOMAINS) in
  pick_all name timeline locks ("reroll:" +:+ domain).

End Program.

(** * Specifications

    The definitions below are not part of the program: they are the
    vocabulary of the statements about it. *)

(** ** Seed derivation *)

(** Seed derivation in the words of the specification (section 4.1). *)
Definition spec_base_seed (name timeline : string) : Z :=
  let key := Str.lower (Str.strip name) +:+ "::" +:+ Str.lower (Str.strip timeline) in
  SHA256.digest_int (Str.encode key) mod (2 ^ 32 - 1).

Definition rehash (base : Z) (salt : string) : Z :=
  SHA256.digest_int (Str.encode (pretty base +:+ ":" +:+ salt)) mod (2 ^ 32 - 1).

Definition spec_final_seed (name timeline salt : string) : Z :=
  let base := spec_base_seed name timeline in
  if bool_decide (salt = "") then base else rehash base salt.

(** ** The sampler *)

(** A weight as the sampler counts it: a negative or missing weight is zero. *)
Definition clamped (w : option Z) : Q :=
  match w with
  | Some w => if w <? 0 then 0%Q else inject_Z w
  | None => 0%Q
  end.

(** The weights of a list of items in a store. *)
Definition weights (h : heap) (items : list loc) : list Q :=
  map (λ l, clamped (i_weight (h !!! l))) items.

(** Some weight of the items is an int that [float] does not convert. *)
Definition overflows (h : heap) (items : list loc) : bool :=
  existsb (λ l, float_overflows (default 0 (i_weight (h !!! l)))) items.

(** The sums the sampler forms are exact in binary64: [float] converts
    every weight, and the weights that count add up to at most 2^53. *)
Definition exact_sums (h : heap) (items : list loc) : Prop :=
  overflows h items = false
  ∧ (fold_left Qplus (weights h items) 0 <= inject_Z (2 ^ 53))%Q.

(** The first index at which the cumulative sum of [ws], started at [c],
    reaches [pick]. *)
Fixpoint first_reaching (pick c : Q) (ws : list Q) : option nat :=
  match ws with
  | [] => None
  | w :: rest =>
      if Qle_bool pick (c + w) then Some O
      else S <$> first_reaching pick (c + w)%Q rest
  end.

(** The draw point for a total weight: a uniform draw when the total is
    positive, zero (and no draw) otherwise. *)
Definition draw_point {RS : RandomSource} (rng : Rng) (total : Q) : Q * Rng :=
  if Qlt_bool 0 total then uniform rng 0 total else (0%Q, rng).

(** The weights of a list of items given as values. *)
Definition item_weights (its : list item) : list Q :=
  map (λ d, clamped (i_weight d)) its.

(** The index [weighted_choice] picks in a list with the weights [ws]. *)
Definition choose {RS : RandomSource} (rng : Rng) (ws : list Q) : nat * Rng :=
  let draw := draw_point rng (fold_left Qplus ws 0%Q) in
  (default (length ws - 1)%nat (first_reaching draw.1 0 ws), draw.2).

(** A small random source for the examples: the state is a counter,
    [uniform(a, b)] walks through the tenths of the way from [a] to [b] and
    [_randbelow(n)] through the residues of the counter. *)
Definition counter_source : RandomSource :=
  {| Rng := Z;
     Random seed := seed;
     uniform r a b := ((a + (b - a) * (r mod 10 # 10))%Q, r + 1);
     randbelow r n := (Z.to_nat (r mod Z.of_nat n), r + 1) |}.

(** ** The store *)

(** [m] leaves the first [n] objects of the store as they are, never shrinks
    the store, and returns only values satisfying [R]. *)
Definition preserves {A} (n : nat) (m : M A) (R : A → Prop) : Prop :=
  ∀ h, (n ≤ length h)%nat →
    take n (m h).2 = take n h ∧ (length h ≤ length (m h).2)%nat
    ∧ ∀ a, (m h).1 = Ok a → R a.

(** A call of one of the operations, with its arguments. *)
Inductive call {RS : RandomSource} :=
| Call_weighted_choice (rng : Rng) (items : list loc)
| Call_apply_rules (p : Picks) (rng : Rng)
| Call_pick_all (name timeline : string) (lock : gmap string loc) (salt : string)
| Call_monte_carlo (name timeline : string) (n : Z)
| Call_reroll_section (name timeline domain : string) (base : Picks)
| Call_narrative (name : string) (p : Picks) (timeline : string).

Section Calls.
Context {RS : RandomSource}.
Variable set_order : gset string → list string.
Variable wrap : string → string.

(** The store a call leaves, whether it returns or raises. *)
Definition run_call (c : call) (h : heap) : heap :=
  match c with
  | Call_weighted_choice rng items => (weighted_choice rng items h).2
  | Call_apply_rules p rng => (apply_rules p rng h).2
  | Call_pick_all name timeline lock salt => (pick_all name timeline lock salt h).2
  | Call_monte_carlo name timeline n => (monte_carlo name timeline n h).2
  | Call_reroll_section name timeline domain base =>
      (reroll_section name timeline domain base h).2
  | Call_narrative name p timeline => (narrative set_order wrap name p timeline h).2
  end.

Definition run_calls (calls : list call) (h : heap) : heap :=
  foldl (λ h c, run_call c h) h calls.
End Calls.

(** The store still holds the dicts of [TRAITS], unchanged, at their addresses. *)
Definition tables_intact (h : heap) : Prop := TRAITS_heap `prefix_of` h.

(** The object at [l] has an "id". *)
Definition has_id (h : heap) (l : loc) : Prop := is_Some (i_id (h !!! l)).

(** An item with an "id" and a "weight". *)
Definition item_ok (d : item) : Prop := is_Some (i_id d) ∧ is_Some (i_weight d).

(** The items of a domain's table. *)
Definition table (d : Domain) : list item :=
  match d with
  | Career => career_table
  | Car => car_table
  | House => house_table
  | Relationship => relationship_table
  | Fame => fame_table
  end.

(** The effect of one step of an adjustment loop on the item it visits. *)
Definition adj (c : bool) (f : Z → Z) (d : item) : item :=
  if c then match i_weight d with Some w => set_weight (f w) d | None => d end
  else d.

Definition adj_id (ids : list string) (f : Z → Z) (d : item) : item :=
  adj (bool_decide (default "" (i_id d) ∈ ids)) f d.

Definition adj_tag (tag : string) (f : Z → Z) (d : item) : item :=
  adj (bool_decide (tag ∈ tags_of d)) f d.

(** ** The rule engine *)

(** A rule that fires under [c] and maps [g] over the pool. *)
Definition nudge (c : bool) (g : item → item) (its : list item) : list item :=
  if c then map g its else its.

(** The car, house and fame pools when the rules have run, as functions of
    the rules' conditions. *)
Definition car_pool_after (lux urbanish : bool) : list item :=
  nudge urbanish (adj_id ["no_car_city"; "smart_scooter"] (λ w, w + 2))
    (map (adj_id ["ultra_lux_ev"] (if lux then (λ w, w + 3) else (λ w, Z.max 1 (w - 2))))
         car_table).

Definition house_pool_after (solo city lux : bool) : list item :=
  nudge lux (adj_id ["skyline_penthouse"] (λ w, w + 2))
    (nudge city (adj_tag "urban" (λ w, w + 2))
       (nudge solo (adj_id ["tiny_home"; "studio_loft"] (λ w, w + 3)) house_table)).

Definition fame_pool_after (fires : bool) : list item :=
  nudge fires (adj_id ["viral_creator"; "industry_respected"] (λ w, w + 1)) fame_table.

(** Some weight of the items, given as values, is an int that [float] does
    not convert. *)
Definition item_overflows (its : list item) : bool :=
  existsb (λ d, float_overflows (default 0 (i_weight d))) its.

(** The trace entries of a run of the rule engine. *)
Definition opt_msg (c : bool) (msg : string) : list string := if c then [msg] else [].

Definition rules_trace (lux urbanish solo city fires : bool) : list string :=
  [if lux then luxury_boost_msg else luxury_damped_msg]
  ++ opt_msg urbanish urban_mobility_msg
  ++ opt_msg solo compact_living_msg
  ++ opt_msg city urban_access_msg
  ++ opt_msg lux penthouse_msg
  ++ opt_msg fires fame_nudge_msg.

(** [p] with another trace. *)
Definition with_trace (p : Picks) (t : list string) : Picks :=
  mkPicks (career p) (car p) (house p) (relationship p) (fame p) t.

(** What a run of the rule engine yields, as a function of the random source
    and of the items it reads: the indices picked in the car, house and fame
    pools, the trace entries, the objects allocated and the random source
    left. *)
Record Outcome {RS : RandomSource} := mkOutcome {
  o_car : nat;
  o_house : nat;
  o_fame : option nat;
  o_trace : list string;
  o_new : list item;
  o_rng : Rng
}.

Definition rules_outcome {RS : RandomSource} (rng : Rng)
    (career_d fame_d house_d : item) (rel_id : string) : Outcome :=
  let lux := (8 <=? default 5 (i_prestige career_d))
             && (7 <=? default 1 (i_level fame_d)) in
  let urbanish := bool_decide ("urban" ∈ tags_of house_d)
                  || bool_decide ("tech" ∈ tags_of career_d) in
  let solo := bool_decide (rel_id = "solo") in
  let fires := bool_decide ("creator" ∈ tags_of career_d)
               || bool_decide (default "" (i_id career_d) ∈ ["founder"; "cinematic_vfx"]) in
  let car_pool := car_pool_after lux urbanish in
  let c := choose rng (item_weights car_pool) in
  let city := bool_decide (default "" (i_id (car_pool !!! c.1))
                           ∈ ["no_car_city"; "smart_scooter"]) in
  let house_pool := house_pool_after solo city lux in
  let h := choose c.2 (item_weights house_pool) in
  let f := choose h.2 (item_weights (fame_pool_after true)) in
  {| o_car := c.1;
     o_house := h.1;
     o_fame := if fires then Some f.1 else None;
     o_trace := rules_trace lux urbanish solo city fires;
     o_new := car_pool ++ house_pool ++ fame_pool_after fires;
     o_rng := if fires then f.2 else h.2 |}.

(** The pick-set after the rule engine, in a store of [n] objects before it. *)
Definition place {RS : RandomSource} (n : nat) (p : Picks) (o : Outcome) : Picks :=
  mkPicks (career p) (n + o_car o) (n + 5 + o_house o) (relationship p)
          (from_option (λ fi, (n + 10 + fi)%nat) (fame p) (o_fame o))
          (trace p ++ o_trace o).

(** ** Pick-sets *)

(** A pick-set of the store: every domain holds an existing object with an
    "id". *)
Definition wf_picks (h : heap) (p : Picks) : Prop :=
  ∀ d, (getattr p d < length h)%nat ∧ has_id h (getattr p d).

(** Locks that hold existing objects with an "id". *)
Definition locks_ok (h : heap) (lock : gmap string loc) : Prop :=
  ∀ key l, lock !! key = Some l → (l < length h)%nat ∧ has_id h l.

(** ** The aggregator *)

(** The sum of the tally of a domain. *)
Definition domain_sum (counts : gmap string (gmap string Z)) (d : Domain) : Z :=
  tally_sum (default ∅ (counts !! domain_name d)).

(** The tally has an entry for every domain. *)
Definition has_domains (counts : gmap string (gmap string Z)) : Prop :=
  ∀ d, is_Some (counts !! domain_name d).

(** ** The prediction as a value *)

(** The address of the first dict of a domain's table. *)
Definition table_start (d : Domain) : nat :=
  match d with
  | Career => 0
  | Car => 8
  | House => 13
  | Relationship => 18
  | Fame => 23
  end.

(** The prediction for (name, timeline, salt) as values: the trait item of
    each domain, in the order of [DOMAINS], and the trace. *)
Definition prediction {RS : RandomSource} (name timeline salt : string)
    : list item * list string :=
  let rng := rng_for name timeline salt in
  let c := choose rng (item_weights career_table) in
  let f := choose c.2 (item_weights fame_table) in
  let r := choose f.2 (item_weights relationship_table) in
  let a := choose r.2 (item_weights car_table) in
  let h := choose a.2 (item_weights house_table) in
  let career_d := career_table !!! c.1 in
  let fame_d := fame_table !!! f.1 in
  let rel_d := relationship_table !!! r.1 in
  let o := rules_outcome h.2 career_d fame_d (house_table !!! h.1)
                         (default "" (i_id rel_d)) in
  ([career_d;
    o_new o !!! o_car o;
    o_new o !!! (5 + o_house o)%nat;
    rel_d;
    from_option (λ fi, o_new o !!! (10 + fi)%nat) fame_d (o_fame o)],
   o_trace o).

(** ** The narrative's facts *)

(** Two enumerations of a set. *)
Definition ascending_order (s : gset string) : list string := elements s.
Definition descending_order (s : gset string) : list string := reverse (elements s).

(** The pick-set of the first item of every table. *)
Definition sample_picks : Picks := mkPicks 0 8 13 18 23 [].

(** The [options] list of [microfacts_for] for a tag pool. *)
Definition options_of (order : gset string → list string) (tags : list string)
    : list string :=
  foldl (λ options t, options ++ default [] (MICRO_FACTS !! t)) []
        (order (list_to_set tags)).

(** The tags of [sample_picks]: those of the career, the house and the car. *)
Definition sample_tags : list string := ["tech"; "research"; "urban"; "smart"; "ev"].

(** The options of [sample_picks] under the two orders. *)
Definition facts_ascending : list string :=
  Eval vm_compute in options_of ascending_order sample_tags.
Definition facts_descending : list string :=
  Eval vm_compute in options_of descending_order sample_tags.

(** ** Data of the examples *)

(** A pool of two items of weight zero. *)
Definition zero_pool : heap :=
  [relationship_item "first" 0 "first"; relationship_item "second" 0 "second"].

(** A dict whose weight is beyond the binary64 range. *)
Definition heavy_item : item := relationship_item "heavy" (10 ^ 400) "heavy".

(** ** The conditions of the rules, and copies of table items *)

(** The condition of the fame rule, read off the career dict. *)
Definition creator_or_founder (d : item) : bool :=
  bool_decide ("creator" ∈ tags_of d)
  || bool_decide (default "" (i_id d) ∈ ["founder"; "cinematic_vfx"]).

(** The conditions of the rule engine, read off the dicts of a pick-set:
    the career, the fame, the house and the relationship it is given, and the
    car it has re-picked. *)
Definition lux_of (career_d fame_d : item) : bool :=
  (8 <=? default 5 (i_prestige career_d)) && (7 <=? default 1 (i_level fame_d)).

Definition urbanish_of (house_d career_d : item) : bool :=
  bool_decide ("urban" ∈ tags_of house_d) || bool_decide ("tech" ∈ tags_of career_d).

Definition solo_of (rel_d : item) : bool := bool_decide (i_id rel_d = Some "solo").

Definition city_of (car_d : item) : bool :=
  bool_decide (default "" (i_id car_d) ∈ ["no_car_city"; "smart_scooter"]).


(** The dict has a "weight", and it is at least 1. *)
Definition weight_positive (d : item) : Prop := ∃ w, i_weight d = Some w ∧ 1 ≤ w.

(** [d] is an item of the table of [dom], but for its weight. *)
Definition copy_of (dom : Domain) (d : item) : Prop :=
  ∃ i w, (i < length (table dom))%nat ∧ d = set_weight w (table dom !!! i).

(** ** Normal forms of names and timelines *)

(** The normal form [seed_from] gives a name and a timeline. *)
Definition normalise (s : string) : string := Str.lower (Str.strip s).

(** The string is ASCII: every byte is below 128.  On these strings
    [Str.strip] and [Str.lower] are Python's [strip] and [lower]. *)
Fixpoint is_ascii (s : string) : bool :=
  match s with
  | EmptyString => true
  | String c s' => (N_of_ascii c <? 128)%N && is_ascii s'
  end.

(** ** Explanation, narrative and facts *)

(** The line of [explanation] for a trace entry. *)
Definition rule_line (t : string) : string := "rule → " +:+ t.

(** The dict at [l] has a "label". *)
Definition has_label (h : heap) (l : loc) : Prop := is_Some (i_label (h !!! l)).

(** A fact of [MICRO_FACTS] for one of the tags [ts]. *)
Definition fact_of (ts : list string) (f : string) : Prop :=
  ∃ t fs, t ∈ ts ∧ MICRO_FACTS !! t = Some fs ∧ f ∈ fs.

(** ** Frequencies of the Monte Carlo trials *)

(** The position of a domain in [DOMAINS]. *)
Definition domain_index (d : Domain) : nat :=
  match d with
  | Career => 0
  | Car => 1
  | House => 2
  | Relationship => 3
  | Fame => 4
  end.

(** The "id" that the prediction with the salt of trial [i] has in domain
    [d]: that of [pick_all(name, timeline, salt=f"mc:{i}")], run in the store
    of the tables. *)
Definition trial_id {RS : RandomSource} (name timeline : string) (i : nat)
    (d : Domain) : string :=
  match pick_all name timeline ∅ ("mc:" +:+ pretty (Z.of_nat i)) TRAITS_heap with
  | (Ok p, h) => default "" (i_id (h !!! getattr p d))
  | (Raise _, _) => ""
  end.

(** How many of the trials have the id [key] in domain [d]. *)
Definition occurrences {RS : RandomSource} (name timeline : string)
    (trials : list nat) (d : Domain) (key : string) : nat :=
  length (filter (λ i, trial_id name timeline i d = key) trials).

(** The entry of a tally for an id seen [n] times: none when [n] is zero. *)
Definition entry (n : nat) : option Z :=
  match n with
  | O => None
  | S _ => Some (Z.of_nat n)
  end.

(** [c[key] = c.get(key, 0) + 1] *)
Definition bump (key : string) (c : gmap string Z) : gmap string Z :=
  <[key := default 0 (c !! key) + 1]> c.

(** ** The computation of a run *)

(** [reroll_section(name, timeline, reroll, base) if reroll else base], as
    [run] computes the pick-set it shows. *)
Definition reroll_or_base {RS : RandomSource} (name timeline : string)
    (reroll : option string) (base : Picks) : M Picks :=
  match reroll with
  | Some domain =>
      if bool_decide (domain = "") then mret base
      else reroll_section name timeline domain base
  | None => mret base
  end.

(** ** Dicts without an id or a label *)


Definition unlabelled_item : item :=
  Item (Some "engaged") (Some 1) None None None None None None None None None.

(** * Properties *)

(** ** SHA-256 test vectors (FIPS 180-4) *)

Example sha256_abc :
  SHA256.digest_int (Str.encode "abc")
  = 0xba7816bf8f01cfea414140de5dae2223b00361a396177a9cb410ff61f20015ad.
Proof. vm_compute. reflexivity. Qed.

Example sha256_empty :
  SHA256.digest_int []
  = 0xe3b0c44298fc1c149afbf4c8996fb92427ae41e4649b934ca495991b7852b855.
Proof. vm_compute. reflexivity. Qed.

Example sha256_two_blocks :
  SHA256.digest_int
    (Str.encode "abcdbcdecdefdefgefghfghighijhijkijkljklmklmnlmnomnopnopq")
  = 0x248d6a61d20638b8e5c026930c3e6039a33ce45964ff2167f6ecedd419db06c1.
Proof. vm_compute. reflexivity. Qed.

(** ** The fame meter *)

Lemma fame_meter_clamped (z : Z) :
  0 ≤ z ≤ 10 →
  Str.chars (Str.repeat "★" (Z.to_nat z) +:+ Str.repeat "☆" (Z.to_nat (10 - z)))
  = replicate (Z.to_nat z) "★" ++ replicate (10 - Z.to_nat z) "☆".
Proof.
  intros Hz.
  assert (z = 0 ∨ z = 1 ∨ z = 2 ∨ z = 3 ∨ z = 4 ∨ z = 5 ∨ z = 6 ∨ z = 7
          ∨ z = 8 ∨ z = 9 ∨ z = 10) as Hcases by lia.
  repeat (destruct Hcases as [-> | Hcases]); [..| subst z]; vm_compute; reflexivity.
Qed.

(** C9: for every integer fame level the meter has exactly 10 characters; the
    first [filled] of them are the filled slot, [filled] being the level
    clamped to 0..10, and the remaining [10 - filled] are the empty slot. *)
Theorem fame_meter_ten_slots (level : Z) :
  let filled := Z.to_nat (Z.max 0 (Z.min level 10)) in
  Str.len (fame_meter level) = 10%nat
  ∧ Str.chars (fame_meter level) = replicate filled "★" ++ replicate (10 - filled) "☆".
Proof.
  intros filled. unfold fame_meter, Str.len.
  rewrite fame_meter_clamped by lia. fold filled.
  split; [| reflexivity].
  rewrite length_app, !length_replicate. subst filled. lia.
Qed.

(** ** Seed derivation *)

(** C3, counterexample: with no salt the seed handed to the random source is
    not the base seed: for "Ada" and "prime" the base seed is 755270771, the
    final seed 895004192. *)
Lemma rng_seed_not_base : rng_seed "Ada" "prime" "" ≠ spec_final_seed "Ada" "prime" "".
Proof. vm_compute. discriminate. Qed.

(** C3 (amended): the base seed is the SHA-256 digest of the UTF-8 bytes of
    the trimmed, lower-cased name and timeline joined by "::", read as an
    integer and reduced modulo 2^32 - 1; the final seed is always the digest of
    "<base_seed>:<salt>" reduced modulo 2^32 - 1, also when the salt is empty
    (the string hashed is then "<base_seed>:"); it lies in [0, 2^32 - 1), and
    it is the seed of the specification whenever a salt is supplied. *)
Theorem rng_seed_always_rehashed (name timeline salt : string) :
  seed_from name timeline = spec_base_seed name timeline
  ∧ rng_seed name timeline salt = rehash (spec_base_seed name timeline) salt
  ∧ 0 ≤ rng_seed name timeline salt < 2 ^ 32 - 1
  ∧ (salt ≠ "" → rng_seed name timeline salt = spec_final_seed name timeline salt).
Proof.
  do 2 (split; [reflexivity|]). split.
  - unfold rng_seed. apply Z.mod_pos_bound. reflexivity.
  - intros Hs. unfold spec_final_seed. rewrite bool_decide_false by done. reflexivity.
Qed.

(** ** The sampler *)

Lemma Qmax_clamped w : Qmax 0 (inject_Z (default 0 w)) = clamped w.
Proof.
  unfold clamped. destruct w as [w|]; simpl; [| reflexivity].
  unfold Qmax, GenericMinMax.gmax, Qcompare. simpl. rewrite Z.mul_1_r.
  destruct w; simpl; reflexivity.
Qed.

Lemma bind_eq {A B} (m : M A) (k : A → M B) h :
  (m ≫= k) h = match m h with (Ok a, h') => k a h' | (Raise e, h') => (Raise e, h') end.
Proof. reflexivity. Qed.

Lemma bind_deref {B} l (k : item → M B) h : (deref l ≫= k) h = k (h !!! l) h.
Proof. reflexivity. Qed.

Lemma bind_ret {A B} (a : A) (k : A → M B) h : (mret a ≫= k) h = k a h.
Proof. reflexivity. Qed.

Lemma weight_of_clamped d (h : heap) :
  float_overflows (default 0 (i_weight d)) = false →
  weight_of d h = (Ok (clamped (i_weight d)), h).
Proof.
  intros E. unfold weight_of, float. rewrite E, bind_ret, Qmax_clamped. reflexivity.
Qed.

Lemma weight_of_overflow d (h : heap) :
  float_overflows (default 0 (i_weight d)) = true →
  weight_of d h = (Raise OverflowError, h).
Proof. intros E. unfold weight_of, float. by rewrite E. Qed.

Section SamplerLemmas.
Context {RS : RandomSource}.

(** The sum raises at the first weight that overflows. *)
Lemma sum_weights_eq items : ∀ acc h,
  sum_weights acc items h
  = if overflows h items then (Raise OverflowError, h)
    else (Ok (fold_left Qplus (weights h items) acc), h).
Proof.
  induction items as [|i items IH]; intros acc h; simpl; [reflexivity|].
  rewrite bind_deref.
  destruct (float_overflows (default 0 (i_weight (h !!! i)))) eqn:E; simpl.
  - by rewrite bind_eq, weight_of_overflow.
  - by rewrite bind_eq, weight_of_clamped, IH.
Qed.

Lemma scan_eq pick items : ∀ c h,
  overflows h items = false →
  scan pick c items h
  = (Ok (first_reaching pick c (weights h items) ≫= λ i, items !! i), h).
Proof.
  induction items as [|i items IH]; intros c h Hno; simpl; [reflexivity|].
  simpl in Hno. apply orb_false_iff in Hno as [Hi Hno].
  rewrite bind_deref, bind_eq, weight_of_clamped by done.
  destruct (Qle_bool pick (c + clamped (i_weight (h !!! i)))); [reflexivity|].
  rewrite IH by done. destruct (first_reaching _ _ _); reflexivity.
Qed.

Lemma first_reaching_lt pick ws : ∀ c i,
  first_reaching pick c ws = Some i → (i < length ws)%nat.
Proof.
  induction ws as [|w ws IH]; intros c i; simpl; [discriminate|].
  destruct (Qle_bool pick (c + w)).
  - intros [= <-]. lia.
  - destruct (first_reaching pick (c + w) ws) eqn:E; simpl; [|discriminate].
    intros [= <-]. apply IH in E. lia.
Qed.

(** What [weighted_choice] computes, on the weights alone. *)
Lemma weighted_choice_eq rng items h :
  weighted_choice rng items h =
  if overflows h items then (Raise OverflowError, h) else
  let ws := weights h items in
  let '(pick, rng') := draw_point rng (fold_left Qplus ws 0%Q) in
  match first_reaching pick 0 ws with
  | Some i => (Ok (default 0%nat (items !! i), rng'), h)
  | None =>
      match last items with
      | Some it => (Ok (it, rng'), h)
      | None => (Ok (length h, rng'), h ++ [empty_item])
      end
  end.
Proof.
  unfold weighted_choice. rewrite bind_eq, sum_weights_eq.
  destruct (overflows h items) eqn:Hno; [reflexivity|]. cbv zeta.
  unfold draw_point.
  destruct (if Qlt_bool 0 _ then _ else _) as [pick rng'].
  rewrite bind_eq, scan_eq by done.
  destruct (first_reaching pick 0 (weights h items)) as [i|] eqn:E; simpl.
  - apply first_reaching_lt in E. unfold weights in E. rewrite length_map in E.
    destruct (lookup_lt_is_Some_2 items i E) as [it ->]. reflexivity.
  - destruct (last items); reflexivity.
Qed.

(** On a non-empty list the sampler leaves the store as it is, also when
    it raises. *)
Lemma weighted_choice_store rng items (h : heap) :
  items ≠ [] → (weighted_choice rng items h).2 = h.
Proof.
  intros Hne. rewrite weighted_choice_eq.
  destruct (overflows h items); [reflexivity|]. cbv zeta.
  destruct (draw_point rng _) as [pick rng'].
  destruct (first_reaching pick 0 _); [reflexivity|].
  destruct (last items) eqn:El; [reflexivity|]. by apply last_None in El.
Qed.
End SamplerLemmas.

Section SamplerTheorems.
Context {RS : RandomSource}.

(** C2 (amended): given an empty candidate list the sampler signals no
    error: it returns a new empty dict [{}] and leaves the random source
    untouched. *)
Theorem weighted_choice_empty rng (h : heap) :
  weighted_choice rng [] h = (Ok (length h, rng), h ++ [empty_item]).
Proof. reflexivity. Qed.

Lemma weights_all_zero (h : heap) items :
  (∀ l, l ∈ items → i_weight (h !!! l) = Some 0) →
  weights h items = replicate (length items) 0%Q.
Proof.
  induction items as [|i items IH]; intros Hz; simpl; [done|].
  rewrite Hz by set_solver. rewrite IH by set_solver. reflexivity.
Qed.

Lemma overflows_all_zero (h : heap) items :
  (∀ l, l ∈ items → i_weight (h !!! l) = Some 0) → overflows h items = false.
Proof.
  induction items as [|i items IH]; intros Hz; simpl; [done|].
  rewrite Hz by set_solver. rewrite IH by set_solver. reflexivity.
Qed.

Lemma sum_zeros k : fold_left Qplus (replicate k 0%Q) 0%Q = 0%Q.
Proof. induction k as [|k IH]; simpl; [done | exact IH]. Qed.

(** C4: on a non-empty list whose items all have weight zero, the draw point
    is zero without a draw from the random source, and the sampler returns
    the first item; it does not raise and picks no other index. *)
Theorem weighted_choice_all_zero rng it rest (h : heap) :
  (∀ l, l ∈ it :: rest → i_weight (h !!! l) = Some 0) →
  draw_point rng (fold_left Qplus (weights h (it :: rest)) 0%Q) = (0%Q, rng)
  ∧ weighted_choice rng (it :: rest) h = (Ok (it, rng), h).
Proof.
  intros Hz. rewrite weighted_choice_eq, overflows_all_zero by done. cbv zeta.
  rewrite weights_all_zero by done. rewrite sum_zeros. split; reflexivity.
Qed.

(** C10 (amended): on a non-empty list the sampler raises exactly when
    some weight is an int that [float] does not convert (it is then
    OverflowError, and the store is as it was); otherwise it returns an
    element of the list and leaves the store as it is.  When the sums are
    exact in binary64, the weights enter as [weights], where a negative or
    missing weight counts as zero, both in the total handed to the draw and
    in the cumulative sum of the scan: the item returned is the first whose
    cumulative weight reaches the draw point, and the last item of the list
    when there is none. *)
Theorem weighted_choice_total rng items (h : heap) :
  items ≠ [] →
  (overflows h items = true →
   weighted_choice rng items h = (Raise OverflowError, h))
  ∧ (overflows h items = false →
     ∃ it rng', weighted_choice rng items h = (Ok (it, rng'), h)
       ∧ it ∈ items
       ∧ (exact_sums h items →
          let ws := weights h items in
          let draw := draw_point rng (fold_left Qplus ws 0%Q) in
          rng' = draw.2
          ∧ match first_reaching draw.1 0 ws with
            | Some i => items !! i = Some it
            | None => last items = Some it
            end)).
Proof.
  intros Hne. rewrite weighted_choice_eq. split; intros ->; [reflexivity|].
  cbv zeta. destruct (draw_point rng _) as [pick rng']. cbn [fst snd].
  destruct (first_reaching pick 0 _) as [i|] eqn:E.
  - apply first_reaching_lt in E. unfold weights in E.
    rewrite length_map in E.
    destruct (lookup_lt_is_Some_2 items i E) as [it Hit]. rewrite Hit.
    exists it, rng'. split_and!; [done | by eapply list_elem_of_lookup_2 | done].
  - destruct (last items) as [it|] eqn:El.
    + exists it, rng'. split_and!; [done | | done].
      apply last_Some in El as [l' ->]. set_solver.
    + by apply last_None in El.
Qed.
End SamplerTheorems.

(** ** Frames: what an operation leaves unchanged *)

Section FrameLemmas.
Context {RS : RandomSource}.
Variable set_order : gset string → list string.
Variable wrap : string → string.
Variable n : nat.

Lemma preserves_ret {A} (a : A) (R : A → Prop) : R a → preserves n (mret a) R.
Proof. intros Ha h Hn. simpl. split_and!; [done | done |]. by intros ? [= <-]. Qed.

Lemma preserves_raise {A} e (R : A → Prop) : preserves n (raise e) R.
Proof. intros h Hn. simpl. split_and!; done. Qed.

Lemma preserves_weaken {A} (m : M A) (R R' : A → Prop) :
  (∀ a, R a → R' a) → preserves n m R → preserves n m R'.
Proof. intros HR Hm h Hn. destruct (Hm h Hn) as (? & ? & ?). naive_solver. Qed.

Lemma preserves_bind {A B} (m : M A) (k : A → M B) R R' :
  preserves n m R → (∀ a, R a → preserves n (k a) R') → preserves n (m ≫= k) R'.
Proof.
  intros Hm Hk h Hn. destruct (Hm h Hn) as (Ht & Hl & Ha).
  rewrite bind_eq. destruct (m h) as [[a|e] h1]; simpl in *.
  - destruct (Hk a (Ha a eq_refl) h1 ltac:(lia)) as (Ht' & Hl' & Hb).
    split_and!; [congruence | lia | done].
  - split_and!; done.
Qed.

Lemma preserves_deref l : preserves n (deref l) (λ _, True).
Proof. intros h Hn. simpl. done. Qed.

Lemma preserves_new_dict d : preserves n (new_dict d) (λ l, (n ≤ l)%nat).
Proof.
  intros h Hn. simpl. split_and!.
  - by rewrite take_app_le.
  - rewrite length_app. lia.
  - intros ? [= <-]. done.
Qed.

Lemma preserves_setitem_weight l w :
  (n ≤ l)%nat → preserves n (setitem_weight l w) (λ _, True).
Proof.
  intros Hl h Hn. simpl. split_and!; [| by rewrite length_insert | done].
  by rewrite take_insert_ge.
Qed.

Lemma preserves_getitem_id l : preserves n (getitem_id l) (λ _, True).
Proof.
  unfold getitem_id. eapply preserves_bind; [apply preserves_deref|].
  intros d _. destruct (i_id d); [by apply preserves_ret | apply preserves_raise].
Qed.

Lemma preserves_getitem_weight l : preserves n (getitem_weight l) (λ _, True).
Proof.
  unfold getitem_weight. eapply preserves_bind; [apply preserves_deref|].
  intros d _. destruct (i_weight d); [by apply preserves_ret | apply preserves_raise].
Qed.

Lemma preserves_getitem_label l : preserves n (getitem_label l) (λ _, True).
Proof.
  unfold getitem_label. eapply preserves_bind; [apply preserves_deref|].
  intros d _. destruct (i_label d); [by apply preserves_ret | apply preserves_raise].
Qed.

Lemma preserves_adjust_by_id ids f it :
  (n ≤ it)%nat → preserves n (adjust_by_id ids f it) (λ _, True).
Proof.
  intros Hit. unfold adjust_by_id.
  eapply preserves_bind; [apply preserves_getitem_id|]. intros id _.
  case_bool_decide; [| by apply preserves_ret].
  eapply preserves_bind; [apply preserves_getitem_weight|]. intros w _.
  by apply preserves_setitem_weight.
Qed.

Lemma preserves_adjust_by_tag tag f it :
  (n ≤ it)%nat → preserves n (adjust_by_tag tag f it) (λ _, True).
Proof.
  intros Hit. unfold adjust_by_tag.
  eapply preserves_bind; [apply preserves_deref|]. intros d _.
  case_bool_decide; [| by apply preserves_ret].
  eapply preserves_bind; [apply preserves_getitem_weight|]. intros w _.
  by apply preserves_setitem_weight.
Qed.

Lemma preserves_for_each body pool :
  Forall (λ it, preserves n (body it) (λ _, True)) pool →
  preserves n (for_each body pool) (λ _, True).
Proof.
  induction 1 as [|it pool Hit _ IH]; simpl; [by apply preserves_ret|].
  eapply preserves_bind; [apply Hit | intros _ _; apply IH].
Qed.

Lemma preserves_copy_pool items :
  preserves n (copy_pool items) (Forall (λ l, (n ≤ l)%nat)).
Proof.
  induction items as [|x items IH]; simpl; [by apply preserves_ret|].
  eapply preserves_bind; [apply preserves_deref|]. intros d _.
  eapply preserves_bind; [apply preserves_new_dict|]. intros c Hc.
  eapply preserves_bind; [apply IH|]. intros cs Hcs.
  apply preserves_ret. by constructor.
Qed.

Lemma preserves_weighted_choice rng items :
  preserves n (weighted_choice rng items)
            (λ r, r.1 ∈ items ∨ (n ≤ r.1)%nat).
Proof.
  intros h Hn. rewrite weighted_choice_eq.
  destruct (overflows h items); [simpl; split_and!; done|]. cbv zeta.
  destruct (draw_point rng _) as [pick rng'].
  destruct (first_reaching pick 0 (weights h items)) as [i|] eqn:E.
  - simpl. split_and!; [done..|]. intros a [= <-]. left. simpl.
    apply first_reaching_lt in E. unfold weights in E. rewrite length_map in E.
    destruct (lookup_lt_is_Some_2 items i E) as [it Hit]. rewrite Hit. simpl.
    by eapply list_elem_of_lookup_2.
  - destruct (last items) as [it|] eqn:El; simpl.
    + split_and!; [done..|]. intros a [= <-]. left. simpl.
      apply last_Some in El as [l' ->]. set_solver.
    + split_and!; [by rewrite take_app_le | rewrite length_app; lia |].
      intros a [= <-]. by right.
Qed.

(** Every loop of the rule engine runs over a pool of fresh copies. *)
Lemma preserves_adjust_loop_id ids f pool :
  Forall (λ l, (n ≤ l)%nat) pool →
  preserves n (for_each (adjust_by_id ids f) pool) (λ _, True).
Proof.
  intros Hp. apply preserves_for_each.
  eapply Forall_impl; [exact Hp|]. intros. by apply preserves_adjust_by_id.
Qed.

Lemma preserves_adjust_loop_tag tag f pool :
  Forall (λ l, (n ≤ l)%nat) pool →
  preserves n (for_each (adjust_by_tag tag f) pool) (λ _, True).
Proof.
  intros Hp. apply preserves_for_each.
  eapply Forall_impl; [exact Hp|]. intros. by apply preserves_adjust_by_tag.
Qed.

Lemma preserves_nudge (c : bool) body pool p msg :
  preserves n (for_each body pool) (λ _, True) →
  preserves n (if c then _ ← for_each body pool; mret (trace_append p msg) else mret p)
            (λ _, True).
Proof.
  intros Hb. destruct c; [| by apply preserves_ret].
  eapply preserves_bind; [exact Hb|]. intros. by apply preserves_ret.
Qed.

Lemma preserves_adjust_car_pool p prestige fame_level :
  preserves n (adjust_car_pool p prestige fame_level)
            (λ r, Forall (λ l, (n ≤ l)%nat) r.2).
Proof.
  unfold adjust_car_pool.
  eapply preserves_bind; [apply preserves_copy_pool|]. intros pool Hpool.
  eapply preserves_bind with (R := λ _, True).
  { destruct (_ && _);
      (eapply preserves_bind; [by apply preserves_adjust_loop_id|]);
      intros; by apply preserves_ret. }
  intros p1 _.
  eapply preserves_bind; [apply preserves_deref|]. intros hd _.
  eapply preserves_bind; [apply preserves_deref|]. intros cd _.
  eapply preserves_bind; [apply preserves_nudge; by apply preserves_adjust_loop_id|].
  intros p2 _. by apply preserves_ret.
Qed.

Lemma preserves_adjust_house_pool p rel_id prestige fame_level :
  preserves n (adjust_house_pool p rel_id prestige fame_level)
            (λ r, Forall (λ l, (n ≤ l)%nat) r.2).
Proof.
  unfold adjust_house_pool.
  eapply preserves_bind; [apply preserves_copy_pool|]. intros pool Hpool.
  eapply preserves_bind; [apply preserves_nudge; by apply preserves_adjust_loop_id|].
  intros p1 _.
  eapply preserves_bind; [apply preserves_getitem_id|]. intros car_id _.
  eapply preserves_bind; [apply preserves_nudge; by apply preserves_adjust_loop_tag|].
  intros p2 _.
  eapply preserves_bind; [apply preserves_nudge; by apply preserves_adjust_loop_id|].
  intros p3 _. by apply preserves_ret.
Qed.

Lemma preserves_fame_interplay p rng :
  preserves n (fame_interplay p rng) (λ _, True).
Proof.
  unfold fame_interplay.
  eapply preserves_bind; [apply preserves_copy_pool|]. intros pool Hpool.
  eapply preserves_bind with (R := λ _, True).
  { unfold is_creator_or_founder.
    eapply preserves_bind; [apply preserves_deref|]. intros cd _.
    case_bool_decide; [by apply preserves_ret|].
    eapply preserves_bind; [apply preserves_getitem_id|]. intros; by apply preserves_ret. }
  intros [] _; [| by apply preserves_ret].
  eapply preserves_bind; [by apply preserves_adjust_loop_id|]. intros _ _.
  eapply preserves_bind; [apply preserves_weighted_choice|].
  intros [f rng'] _. by apply preserves_ret.
Qed.

Lemma preserves_apply_rules p rng : preserves n (apply_rules p rng) (λ _, True).
Proof.
  unfold apply_rules.
  eapply preserves_bind; [apply preserves_deref|]. intros cd _.
  eapply preserves_bind; [apply preserves_deref|]. intros fd _.
  eapply preserves_bind; [apply preserves_getitem_id|]. intros rel_id _.
  eapply preserves_bind; [apply preserves_adjust_car_pool|]. intros [p1 car_pool] _.
  eapply preserves_bind; [apply preserves_weighted_choice|]. intros [c rng1] _.
  eapply preserves_bind; [apply preserves_adjust_house_pool|]. intros [p2 house_pool] _.
  eapply preserves_bind; [apply preserves_weighted_choice|]. intros [hh rng2] _.
  apply preserves_fame_interplay.
Qed.

Lemma preserves_locked_or lock key rng items :
  preserves n (locked_or lock key rng items) (λ _, True).
Proof.
  unfold locked_or. destruct (lock !! key) as [l|].
  - eapply preserves_bind; [apply preserves_deref|]. intros d _.
    destruct (truthy d); [by apply preserves_ret|].
    eapply preserves_weaken; [| apply preserves_weighted_choice]. done.
  - eapply preserves_weaken; [| apply preserves_weighted_choice]. done.
Qed.

Lemma preserves_pick_all name timeline lock salt :
  preserves n (pick_all name timeline lock salt) (λ _, True).
Proof.
  unfold pick_all.
  do 5 (eapply preserves_bind; [apply preserves_locked_or|]; intros [? ?] _).
  eapply preserves_bind; [apply preserves_apply_rules|]. intros [? ?] _.
  by apply preserves_ret.
Qed.

Lemma preserves_tally_all p ds : ∀ counts,
  preserves n (tally_all counts p ds) (λ _, True).
Proof.
  induction ds as [|d ds IH]; intros counts; simpl; [by apply preserves_ret|].
  eapply preserves_bind; [apply preserves_getitem_id|]. intros key _.
  destruct (tally counts (domain_name d) key); [apply IH | apply preserves_raise].
Qed.

Lemma preserves_monte_carlo_loop name timeline trials : ∀ counts,
  preserves n (monte_carlo_loop name timeline trials counts) (λ _, True).
Proof.
  induction trials as [|i trials IH]; intros counts; cbn -[tally_all pick_all];
    [by apply preserves_ret|].
  eapply preserves_bind; [apply preserves_pick_all|]. intros p _.
  eapply preserves_bind; [apply preserves_tally_all|]. intros counts' _.
  apply IH.
Qed.

Lemma preserves_monte_carlo name timeline trials :
  preserves n (monte_carlo name timeline trials) (λ _, True).
Proof. apply preserves_monte_carlo_loop. Qed.

Lemma preserves_reroll_section name timeline domain base :
  preserves n (reroll_section name timeline domain base) (λ _, True).
Proof. apply preserves_pick_all. Qed.

Lemma preserves_microfacts_for p rng k :
  preserves n (microfacts_for set_order p rng k) (λ _, True).
Proof.
  unfold microfacts_for.
  do 3 (eapply preserves_bind; [apply preserves_deref|]; intros ? _).
  cbv zeta. destruct (shuffle rng _). by apply preserves_ret.
Qed.

Lemma preserves_narrative name p timeline :
  preserves n (narrative set_order wrap name p timeline) (λ _, True).
Proof.
  unfold narrative.
  do 4 (eapply preserves_bind; [apply preserves_deref|]; intros ? _).
  do 2 (eapply preserves_bind; [apply preserves_getitem_label|]; intros ? _).
  eapply preserves_bind; [apply preserves_microfacts_for|]. intros ? _.
  by apply preserves_ret.
Qed.
End FrameLemmas.

Lemma preserves_prefix {A} (m : M A) (h : heap) :
  preserves (length h) m (λ _, True) → h `prefix_of` (m h).2.
Proof.
  intros Hm. destruct (Hm h ltac:(done)) as (Ht & _ & _).
  rewrite firstn_all in Ht. rewrite <- Ht at 1. apply prefix_take.
Qed.

Section CallLemmas.
Context {RS : RandomSource}.
Variable set_order : gset string → list string.
Variable wrap : string → string.

Lemma run_call_prefix c (h : heap) : h `prefix_of` run_call set_order wrap c h.
Proof.
  destruct c; simpl; apply preserves_prefix.
  - eapply preserves_weaken; [| apply preserves_weighted_choice]. done.
  - apply preserves_apply_rules.
  - apply preserves_pick_all.
  - apply preserves_monte_carlo.
  - apply preserves_reroll_section.
  - apply preserves_narrative.
Qed.

Lemma run_calls_prefix calls :
  ∀ h : heap, h `prefix_of` run_calls set_order wrap calls h.
Proof.
  induction calls as [|c calls IH]; intros h; simpl; [done|].
  etrans; [apply run_call_prefix | apply IH].
Qed.

(** C5: whatever calls of [weighted_choice], [apply_rules], [pick_all],
    [monte_carlo], [reroll_section] and [narrative] are made, in any number
    and order and with any arguments, the dict objects of [TRAITS] (and every
    other object that existed before) are unchanged afterwards: the final
    store is the initial one followed by the objects allocated since.  Every
    weight adjustment therefore writes to a copy. *)
Theorem tables_never_mutated (calls : list call) (ext : heap) :
  ∃ ext', run_calls set_order wrap calls (TRAITS_heap ++ ext)
          = TRAITS_heap ++ ext ++ ext'.
Proof.
  destruct (run_calls_prefix calls (TRAITS_heap ++ ext)) as [ext' E].
  exists ext'. by rewrite E, <- app_assoc.
Qed.
End CallLemmas.

(** ** The rule engine, run on a store that holds the tables *)

Lemma bind_ok {A B} (m : M A) (k : A → M B) h a h' :
  m h = (Ok a, h') → (m ≫= k) h = k a h'.
Proof. intros E. rewrite bind_eq, E. reflexivity. Qed.

Lemma lookup_top (pre its : list item) i :
  (pre ++ its) !!! (length pre + i)%nat = its !!! i.
Proof. rewrite lookup_total_app_r by lia. f_equal. lia. Qed.

Lemma lookup_top0 (pre : list item) d its : (pre ++ d :: its) !!! length pre = d.
Proof. rewrite lookup_total_app_r by lia. by rewrite Nat.sub_diag. Qed.

Lemma insert_top0 (pre : list item) d d' its :
  <[length pre := d']> (pre ++ d :: its) = pre ++ d' :: its.
Proof. rewrite insert_app_r_alt by lia. by rewrite Nat.sub_diag. Qed.

Lemma item_ok_adj c f d : item_ok d → item_ok (adj c f d).
Proof.
  intros [Hi Hw]. unfold adj. destruct c; [| done].
  destruct (i_weight d); [| done]. split; simpl; [done | eauto].
Qed.

Lemma adjust_by_id_top ids f (pre : list item) d its :
  item_ok d →
  adjust_by_id ids f (length pre) (pre ++ d :: its) = (Ok tt, pre ++ adj_id ids f d :: its).
Proof.
  intros [[id Hid] [w Hw]]. unfold adjust_by_id, getitem_id, getitem_weight, adj_id, adj.
  rewrite !bind_eq. unfold deref. rewrite lookup_top0, Hid. simpl.
  case_bool_decide; [| done].
  rewrite !bind_eq. rewrite lookup_top0, Hw. simpl.
  unfold setitem_weight. by rewrite lookup_top0, insert_top0.
Qed.

Lemma adjust_by_tag_top tag f (pre : list item) d its :
  item_ok d →
  adjust_by_tag tag f (length pre) (pre ++ d :: its)
  = (Ok tt, pre ++ adj_tag tag f d :: its).
Proof.
  intros [_ [w Hw]]. unfold adjust_by_tag, getitem_weight, adj_tag, adj.
  rewrite !bind_eq. unfold deref. rewrite lookup_top0.
  case_bool_decide; [| done].
  rewrite !bind_eq. rewrite lookup_top0, Hw. simpl.
  unfold setitem_weight. by rewrite lookup_top0, insert_top0.
Qed.

Lemma for_each_top body (g : item → item) :
  (∀ (pre : list item) d its,
     item_ok d → body (length pre) (pre ++ d :: its) = (Ok tt, pre ++ g d :: its)) →
  ∀ its (pre : list item),
    Forall item_ok its →
    for_each body (seq (length pre) (length its)) (pre ++ its)
    = (Ok tt, pre ++ map g its).
Proof.
  intros Hbody. induction its as [|d its IH]; intros pre Hok; [done|].
  apply Forall_cons in Hok as [Hd Hits]. simpl.
  erewrite bind_ok by (by apply Hbody).
  specialize (IH (pre ++ [g d]) Hits).
  rewrite length_app, <- !app_assoc in IH. simpl in IH.
  by rewrite Nat.add_1_r in IH.
Qed.

Lemma copy_pool_eq (base : list item) items :
  Forall (λ l, (l < length base)%nat) items →
  ∀ pre : list item,
    copy_pool items (base ++ pre)
    = (Ok (seq (length (base ++ pre)) (length items)),
       (base ++ pre) ++ map (λ l, base !!! l) items).
Proof.
  induction 1 as [|x items Hx _ IH]; intros pre; simpl; [by rewrite app_nil_r|].
  rewrite bind_eq. unfold deref. rewrite bind_eq. unfold new_dict.
  rewrite lookup_total_app_l by done.
  rewrite bind_eq, <- (app_assoc base pre), IH. simpl.
  rewrite !length_app. simpl. rewrite <- !app_assoc. simpl.
  by rewrite Nat.add_assoc, Nat.add_1_r.
Qed.

Lemma TRAITS_table d : map (λ l, TRAITS_heap !!! l) (TRAITS d) = table d.
Proof. destruct d; reflexivity. Qed.

Lemma copy_TRAITS d h :
  tables_intact h →
  copy_pool (TRAITS d) h = (Ok (seq (length h) (length (table d))), h ++ table d).
Proof.
  intros [ext ->]. rewrite copy_pool_eq.
  - rewrite TRAITS_table. f_equal. f_equal. f_equal. destruct d; reflexivity.
  - destruct d; vm_compute; repeat constructor.
Qed.

Lemma getitem_id_ok l (h : heap) s : i_id (h !!! l) = Some s → getitem_id l h = (Ok s, h).
Proof. intros E. unfold getitem_id. rewrite bind_deref, E. reflexivity. Qed.

Lemma Forall_item_ok_map g its :
  (∀ d, item_ok d → item_ok (g d)) → Forall item_ok its → Forall item_ok (map g its).
Proof. intros Hg H. rewrite Forall_map. eapply Forall_impl; [exact H | done]. Qed.

Lemma item_ok_nudge_id c ids f its :
  Forall item_ok its → Forall item_ok (nudge c (adj_id ids f) its).
Proof.
  intros H. destruct c; [| done]. apply Forall_item_ok_map; [| done].
  intros d. apply item_ok_adj.
Qed.

Lemma item_ok_nudge_tag c tag f its :
  Forall item_ok its → Forall item_ok (nudge c (adj_tag tag f) its).
Proof.
  intros H. destruct c; [| done]. apply Forall_item_ok_map; [| done].
  intros d. apply item_ok_adj.
Qed.

Lemma length_nudge c g its : length (nudge c g its) = length its.
Proof. destruct c; simpl; [apply length_map | done]. Qed.

Lemma table_ok d : Forall item_ok (table d).
Proof. destruct d; repeat constructor; simpl; eauto. Qed.

Lemma nudge_run (c : bool) body g (pre its : list item) p msg :
  (∀ (pre : list item) d its,
     item_ok d → body (length pre) (pre ++ d :: its) = (Ok tt, pre ++ g d :: its)) →
  Forall item_ok its →
  (if c then _ ← for_each body (seq (length pre) (length its)); mret (trace_append p msg)
   else mret p) (pre ++ its)
  = (Ok (with_trace p (trace p ++ opt_msg c msg)), pre ++ nudge c g its).
Proof.
  intros Hbody Hok. destruct c; simpl.
  - erewrite bind_ok by (by apply for_each_top). reflexivity.
  - rewrite app_nil_r. by destruct p.
Qed.

Section BlockLemmas.
Context {RS : RandomSource}.

Lemma weighted_choice_member rng items (h : heap) :
  items ≠ [] → overflows h items = false →
  ∃ it rng', weighted_choice rng items h = (Ok (it, rng'), h) ∧ it ∈ items.
Proof.
  intros Hne Hno. rewrite weighted_choice_eq, Hno. cbv zeta.
  destruct (draw_point rng _) as [pick rng'].
  destruct (first_reaching pick 0 (weights h items)) as [i|] eqn:E.
  - apply first_reaching_lt in E. unfold weights in E. rewrite length_map in E.
    destruct (lookup_lt_is_Some_2 items i E) as [it Hit]. rewrite Hit. simpl.
    exists it, rng'. split; [done|]. by eapply list_elem_of_lookup_2.
  - destruct (last items) as [it|] eqn:El.
    + exists it, rng'. split; [done|]. apply last_Some in El as [l' ->]. set_solver.
    + apply last_None in El. done.
Qed.

Lemma choose_lt rng ws : ws ≠ [] → ((choose rng ws).1 < length ws)%nat.
Proof.
  intros Hne. unfold choose. cbn [fst].
  destruct (first_reaching _ _ ws) as [i|] eqn:E; simpl.
  - by apply first_reaching_lt in E.
  - destruct ws; [done | simpl; lia].
Qed.

Lemma weighted_choice_seq rng start k (h : heap) :
  (0 < k)%nat → overflows h (seq start k) = false →
  weighted_choice rng (seq start k) h
  = (Ok ((start + (choose rng (weights h (seq start k))).1)%nat,
         (choose rng (weights h (seq start k))).2), h).
Proof.
  intros Hk Hno. rewrite weighted_choice_eq, Hno. cbv zeta. unfold choose.
  destruct (draw_point rng _) as [pick rng']. cbn [fst snd].
  assert (Hlen : length (weights h (seq start k)) = k).
  { unfold weights. by rewrite length_map, length_seq. }
  destruct (first_reaching pick 0 _) as [i|] eqn:E; simpl.
  - apply first_reaching_lt in E. rewrite Hlen in E.
    by rewrite lookup_seq_lt.
  - rewrite Hlen. destruct k as [|k]; [lia|].
    rewrite seq_S, last_snoc. do 3 f_equal. lia.
Qed.

Lemma weights_fresh its : ∀ pre : list item,
  weights (pre ++ its) (seq (length pre) (length its)) = item_weights its.
Proof.
  induction its as [|d its IH]; intros pre; [done|]. simpl.
  rewrite lookup_top0. f_equal.
  specialize (IH (pre ++ [d])). rewrite length_app, <- app_assoc in IH.
  simpl in IH. by rewrite Nat.add_1_r in IH.
Qed.

Lemma overflows_fresh its : ∀ pre : list item,
  overflows (pre ++ its) (seq (length pre) (length its)) = item_overflows its.
Proof.
  induction its as [|d its IH]; intros pre; [done|]. simpl.
  rewrite lookup_top0. f_equal.
  specialize (IH (pre ++ [d])). rewrite length_app, <- app_assoc in IH.
  simpl in IH. by rewrite Nat.add_1_r in IH.
Qed.

Lemma weighted_choice_fresh rng (pre its : list item) k :
  length its = k → (0 < k)%nat → item_overflows its = false →
  weighted_choice rng (seq (length pre) k) (pre ++ its)
  = (Ok ((length pre + (choose rng (item_weights its)).1)%nat,
         (choose rng (item_weights its)).2), pre ++ its).
Proof.
  intros <- Hk Hno. rewrite weighted_choice_seq by (done || by rewrite overflows_fresh).
  by rewrite weights_fresh.
Qed.

Lemma car_pool_convertible lux urbanish :
  item_overflows (car_pool_after lux urbanish) = false.
Proof. destruct lux, urbanish; vm_compute; reflexivity. Qed.

Lemma house_pool_convertible solo city lux :
  item_overflows (house_pool_after solo city lux) = false.
Proof. destruct solo, city, lux; vm_compute; reflexivity. Qed.

Lemma fame_pool_convertible fires : item_overflows (fame_pool_after fires) = false.
Proof. destruct fires; vm_compute; reflexivity. Qed.

Lemma adjust_car_pool_run p prestige fame_level (h : heap) :
  tables_intact h →
  (house p < length h)%nat → (career p < length h)%nat →
  let lux := (8 <=? prestige) && (7 <=? fame_level) in
  let urbanish := bool_decide ("urban" ∈ tags_of (h !!! house p))
                  || bool_decide ("tech" ∈ tags_of (h !!! career p)) in
  adjust_car_pool p prestige fame_level h
  = (Ok (with_trace p (trace p ++ [if lux then luxury_boost_msg else luxury_damped_msg]
                               ++ opt_msg urbanish urban_mobility_msg),
         seq (length h) 5),
     h ++ car_pool_after lux urbanish).
Proof.
  intros Hh Hhouse Hcareer lux urbanish. unfold adjust_car_pool.
  erewrite bind_ok by (by apply (copy_TRAITS Car)).
  set (its := map (adj_id ["ultra_lux_ev"]
                     (if lux then (λ w, w + 3) else (λ w, Z.max 1 (w - 2)))) car_table).
  assert (Hits : Forall item_ok its).
  { apply Forall_item_ok_map; [intros d; apply item_ok_adj | apply (table_ok Car)]. }
  erewrite bind_ok with (a := trace_append p (if lux then luxury_boost_msg else luxury_damped_msg))
                        (h' := h ++ its).
  2:{ fold lux. subst its. clearbody lux. destruct lux;
      (erewrite bind_ok by (apply (for_each_top _ _ (adjust_by_id_top _ _)), (table_ok Car)));
      reflexivity. }
  rewrite !bind_deref. rewrite !lookup_total_app_l by (simpl; lia). fold urbanish.
  change (length (table Car)) with (length its).
  erewrite bind_ok by (apply (nudge_run _ _ _ _ _ _ _ (adjust_by_id_top _ _)), Hits).
  unfold with_trace, trace_append.
  cbn [trace house career car relationship fame]. rewrite <- app_assoc. reflexivity.
Qed.

Lemma adjust_house_pool_run p rel_id prestige fame_level (h : heap) car_id :
  tables_intact h →
  (car p < length h)%nat → i_id (h !!! car p) = Some car_id →
  let solo := bool_decide (rel_id = "solo") in
  let city := bool_decide (car_id ∈ ["no_car_city"; "smart_scooter"]) in
  let lux := (8 <=? prestige) && (7 <=? fame_level) in
  adjust_house_pool p rel_id prestige fame_level h
  = (Ok (with_trace p (trace p ++ opt_msg solo compact_living_msg
                               ++ opt_msg city urban_access_msg
                               ++ opt_msg lux penthouse_msg),
         seq (length h) 5),
     h ++ house_pool_after solo city lux).
Proof.
  intros Hh Hcar Hid solo city lux. unfold adjust_house_pool.
  erewrite bind_ok by (by apply (copy_TRAITS House)).
  pose proof (table_ok House) as Hok0.
  erewrite bind_ok
    by (apply (nudge_run _ _ _ _ _ _ _ (adjust_by_id_top _ _)), Hok0).
  fold solo.
  set (its1 := nudge solo _ (table House)).
  assert (Hok1 : Forall item_ok its1) by (by apply item_ok_nudge_id).
  erewrite bind_ok.
  2:{ apply getitem_id_ok. cbn [with_trace car].
      rewrite lookup_total_app_l by done. exact Hid. }
  fold city.
  replace (length (table House)) with (length its1) by apply length_nudge.
  erewrite bind_ok
    by (apply (nudge_run _ _ _ _ _ _ _ (adjust_by_tag_top _ _)), Hok1).
  set (its2 := nudge city _ its1).
  assert (Hok2 : Forall item_ok its2) by (by apply item_ok_nudge_tag).
  replace (length its1) with (length its2) by apply length_nudge.
  erewrite bind_ok
    by (apply (nudge_run _ _ _ _ _ _ _ (adjust_by_id_top _ _)), Hok2).
  fold lux. unfold with_trace. cbn [trace house career car relationship fame].
  rewrite <- !app_assoc.
  subst its2 its1. rewrite !length_nudge. reflexivity.
Qed.

Lemma fame_interplay_run p rng (h : heap) career_id :
  tables_intact h →
  (career p < length h)%nat → i_id (h !!! career p) = Some career_id →
  let fires := bool_decide ("creator" ∈ tags_of (h !!! career p))
               || bool_decide (career_id ∈ ["founder"; "cinematic_vfx"]) in
  let pick := choose rng (item_weights (fame_pool_after true)) in
  fame_interplay p rng h
  = (Ok (with_trace (if fires then set_fame p (length h + pick.1) else p)
                    (trace p ++ opt_msg fires fame_nudge_msg),
         if fires then pick.2 else rng),
     h ++ fame_pool_after fires).
Proof.
  intros Hh Hcareer Hid fires pick. unfold fame_interplay.
  erewrite bind_ok by (by apply (copy_TRAITS Fame)).
  assert (Hf : is_creator_or_founder p (h ++ table Fame) = (Ok fires, h ++ table Fame)).
  { unfold is_creator_or_founder. rewrite bind_deref.
    rewrite lookup_total_app_l by done. subst fires.
    case_bool_decide; [done|].
    erewrite bind_ok
      by (apply getitem_id_ok; rewrite lookup_total_app_l by done; exact Hid).
    reflexivity. }
  erewrite bind_ok by exact Hf. clearbody fires. destruct fires.
  - erewrite bind_ok
      by (apply (for_each_top _ _ (adjust_by_id_top _ _)), (table_ok Fame)).
    erewrite bind_ok
      by (apply weighted_choice_fresh;
          [done | simpl; lia | apply (fame_pool_convertible true)]).
    reflexivity.
  - simpl. rewrite app_nil_r. by destruct p.
Qed.
End BlockLemmas.

Lemma length_car_pool_after lux urbanish : length (car_pool_after lux urbanish) = 5%nat.
Proof. unfold car_pool_after. by rewrite length_nudge, length_map. Qed.

Lemma length_house_pool_after solo city lux :
  length (house_pool_after solo city lux) = 5%nat.
Proof. unfold house_pool_after. by rewrite !length_nudge. Qed.

Lemma length_fame_pool_after fires : length (fame_pool_after fires) = 5%nat.
Proof. unfold fame_pool_after. by rewrite !length_nudge. Qed.

Lemma car_pool_after_ok lux urbanish : Forall item_ok (car_pool_after lux urbanish).
Proof.
  apply item_ok_nudge_id, Forall_item_ok_map; [intros d; apply item_ok_adj|].
  apply (table_ok Car).
Qed.

Lemma house_pool_after_ok solo city lux : Forall item_ok (house_pool_after solo city lux).
Proof.
  apply item_ok_nudge_id, item_ok_nudge_tag, item_ok_nudge_id, (table_ok House).
Qed.

Lemma fame_pool_after_ok fires : Forall item_ok (fame_pool_after fires).
Proof. apply item_ok_nudge_id, (table_ok Fame). Qed.

Lemma tables_intact_app h ext : tables_intact h → tables_intact (h ++ ext).
Proof. intros H. unfold tables_intact. etrans; [exact H | by apply prefix_app_r]. Qed.

Section RuleLemmas.
Context {RS : RandomSource}.

Lemma item_weights_nonempty its : length its = 5%nat → item_weights its ≠ [].
Proof. by destruct its. Qed.

Lemma apply_rules_eq p rng (h : heap) rel_id :
  tables_intact h →
  (∀ d, getattr p d < length h)%nat →
  i_id (h !!! relationship p) = Some rel_id →
  is_Some (i_id (h !!! career p)) →
  let o := rules_outcome rng (h !!! career p) (h !!! fame p) (h !!! house p) rel_id in
  apply_rules p rng h = (Ok (place (length h) p o, o_rng o), h ++ o_new o).
Proof.
  intros Hh Hb Hrel [career_id Hcar].
  pose proof (Hb Career) as Hbc. pose proof (Hb House) as Hbh. simpl in Hbc, Hbh.
  unfold rules_outcome. rewrite Hcar. simpl (default _ (Some _)). cbv zeta.
  set (lux := (8 <=? _) && _). set (urbanish := _ || _).
  set (fires := bool_decide ("creator" ∈ _) || _).
  set (carA := car_pool_after lux urbanish).
  set (c := choose rng (item_weights carA)).
  assert (Hc : (c.1 < 5)%nat).
  { rewrite <- (length_car_pool_after lux urbanish), <- (length_map (λ d, clamped (i_weight d))).
    apply choose_lt, item_weights_nonempty, length_car_pool_after. }
  assert (∃ cid, i_id (carA !!! c.1) = Some cid) as [cid Hcid].
  { pose proof (car_pool_after_ok lux urbanish) as Hok. fold carA in Hok.
    rewrite Forall_lookup in Hok.
    destruct (lookup_lt_is_Some_2 carA c.1) as [d Hd].
    { subst carA. rewrite length_car_pool_after. done. }
    rewrite (list_lookup_total_correct _ _ _ Hd).
    destruct (Hok _ _ Hd) as [[cid Hid] _]. eauto. }
  rewrite Hcid. simpl (default _ (Some _)).
  set (city := bool_decide (cid ∈ _)).
  set (houseA := house_pool_after (bool_decide (rel_id = "solo")) city lux).
  set (hc := choose c.2 (item_weights houseA)).
  assert (Hhc : (hc.1 < 5)%nat).
  { rewrite <- (length_house_pool_after (bool_decide (rel_id = "solo")) city lux),
      <- (length_map (λ d, clamped (i_weight d))).
    apply choose_lt, item_weights_nonempty, length_house_pool_after. }
  unfold apply_rules. rewrite bind_deref. cbv zeta. rewrite bind_deref.
  erewrite bind_ok by (apply getitem_id_ok, Hrel).
  erewrite bind_ok by (by apply adjust_car_pool_run).
  cbv beta iota. fold lux urbanish carA.
  erewrite bind_ok
    by (apply weighted_choice_fresh;
        [apply length_car_pool_after | lia | apply car_pool_convertible]).
  cbv beta iota. fold c.
  erewrite bind_ok.
  2:{ eapply (adjust_house_pool_run _ _ _ _ _ cid).
      - by apply tables_intact_app.
      - cbn [set_car with_trace car]. rewrite length_app.
        subst carA. rewrite length_car_pool_after. lia.
      - cbn [set_car with_trace car]. by rewrite lookup_top. }
  cbv beta iota. fold lux city houseA.
  erewrite bind_ok
    by (apply weighted_choice_fresh;
        [apply length_house_pool_after | lia | apply house_pool_convertible]).
  cbv beta iota. fold hc.
  rewrite (fame_interplay_run _ _ _ career_id).
  - cbn [set_house set_car with_trace career].
    rewrite lookup_total_app_l by (rewrite length_app; lia).
    rewrite lookup_total_app_l by done. fold fires.
    rewrite !length_app. subst carA houseA.
    rewrite length_car_pool_after, length_house_pool_after.
    rewrite <- !app_assoc. unfold rules_trace, place. fold lux.
    replace (length h + 5 + 5)%nat with (length h + 10)%nat by lia.
    clearbody fires lux urbanish city c hc.
    destruct fires;
      cbn [set_house set_car set_fame with_trace trace career car house
           relationship fame o_car o_house o_fame o_trace o_new o_rng from_option];
      rewrite <- ?app_assoc; reflexivity.
  - by apply tables_intact_app, tables_intact_app.
  - cbn [set_house set_car with_trace career]. rewrite !length_app. lia.
  - cbn [set_house set_car with_trace career].
    rewrite lookup_total_app_l by (rewrite length_app; lia).
    rewrite lookup_total_app_l by done. exact Hcar.
Qed.

Lemma choose_pool_lt rng (its : list item) :
  length its = 5%nat → ((choose rng (item_weights its)).1 < 5)%nat.
Proof.
  intros Hl. pose proof (choose_lt rng (item_weights its)) as H.
  unfold item_weights in H at 3. rewrite length_map, Hl in H.
  by apply H, item_weights_nonempty.
Qed.

Lemma apply_rules_run p rng (h : heap) rel_id career_id :
  tables_intact h →
  (∀ d, getattr p d < length h)%nat →
  i_id (h !!! relationship p) = Some rel_id →
  i_id (h !!! career p) = Some career_id →
  let lux := (8 <=? default 5 (i_prestige (h !!! career p)))
             && (7 <=? default 1 (i_level (h !!! fame p))) in
  let urbanish := bool_decide ("urban" ∈ tags_of (h !!! house p))
                  || bool_decide ("tech" ∈ tags_of (h !!! career p)) in
  let solo := bool_decide (rel_id = "solo") in
  let fires := bool_decide ("creator" ∈ tags_of (h !!! career p))
               || bool_decide (career_id ∈ ["founder"; "cinematic_vfx"]) in
  ∃ ci hi fi rng', (ci < 5)%nat ∧ (hi < 5)%nat ∧ (fi < 5)%nat ∧
    let n := length h in
    let city := bool_decide (default "" (i_id (car_pool_after lux urbanish !!! ci))
                             ∈ ["no_car_city"; "smart_scooter"]) in
    apply_rules p rng h
    = (Ok (mkPicks (career p) (n + ci) (n + 5 + hi) (relationship p)
                   (if fires then (n + 10 + fi)%nat else fame p)
                   (trace p ++ rules_trace lux urbanish solo city fires), rng'),
       h ++ car_pool_after lux urbanish ++ house_pool_after solo city lux
         ++ fame_pool_after fires).
Proof.
  intros Hh Hb Hrel Hcar lux urbanish solo fires.
  rewrite (apply_rules_eq p rng h rel_id) by eauto.
  set (o := rules_outcome _ _ _ _ _).
  exists (o_car o), (o_house o), (default 0%nat (o_fame o)), (o_rng o).
  subst o. unfold rules_outcome, place. rewrite Hcar. simpl (default _ (Some _)).
  cbv zeta. fold lux urbanish solo fires.
  cbn [o_car o_house o_fame o_trace o_new o_rng].
  split_and!; [apply choose_pool_lt, length_car_pool_after
              | apply choose_pool_lt, length_house_pool_after
              | | by destruct fires].
  destruct fires; [apply choose_pool_lt, length_fame_pool_after | simpl; lia].
Qed.
End RuleLemmas.

(** ** Picking *)

Lemma has_id_truthy d : is_Some (i_id d) → truthy d = true.
Proof. intros [s Hs]. destruct d; simpl in *. by subst. Qed.

Lemma tables_intact_lookup h l :
  tables_intact h → (l < length TRAITS_heap)%nat → h !!! l = TRAITS_heap !!! l.
Proof. intros [ext ->] Hl. by rewrite lookup_total_app_l. Qed.

Lemma tables_intact_length h : tables_intact h → (length TRAITS_heap ≤ length h)%nat.
Proof. intros [ext ->]. rewrite length_app. lia. Qed.

Lemma TRAITS_bounded d l : l ∈ TRAITS d → (l < length TRAITS_heap)%nat.
Proof. destruct d; unfold TRAITS; rewrite elem_of_seq; simpl; lia. Qed.

Lemma overflows_app (h ext : heap) items :
  Forall (λ l, (l < length h)%nat) items → overflows (h ++ ext) items = overflows h items.
Proof.
  induction 1 as [|l items Hl _ IH]; simpl; [done|].
  by rewrite lookup_total_app_l, IH.
Qed.

Lemma TRAITS_convertible h d : tables_intact h → overflows h (TRAITS d) = false.
Proof.
  intros [ext ->]. rewrite overflows_app.
  - destruct d; vm_compute; reflexivity.
  - apply Forall_forall. intros l Hl. by eapply TRAITS_bounded.
Qed.

Lemma TRAITS_heap_ok : Forall item_ok TRAITS_heap.
Proof. repeat constructor; simpl; eauto. Qed.

Lemma TRAITS_has_id h d l : tables_intact h → l ∈ TRAITS d → has_id h l.
Proof.
  intros Hh Hl. apply TRAITS_bounded in Hl. unfold has_id.
  rewrite tables_intact_lookup by done.
  destruct (lookup_lt_is_Some_2 TRAITS_heap l Hl) as [x Hx].
  rewrite (list_lookup_total_correct _ _ _ Hx).
  pose proof TRAITS_heap_ok as Hok. rewrite Forall_lookup in Hok.
  by destruct (Hok _ _ Hx).
Qed.

Lemma has_id_app (h ext : heap) l : (l < length h)%nat → has_id h l → has_id (h ++ ext) l.
Proof. intros Hl. unfold has_id. by rewrite lookup_total_app_l. Qed.

Lemma has_id_segment (pre its ext : heap) i :
  Forall item_ok its → (i < length its)%nat → has_id (pre ++ its ++ ext) (length pre + i).
Proof.
  intros Hok Hi. unfold has_id. rewrite lookup_top, lookup_total_app_l by done.
  destruct (lookup_lt_is_Some_2 its i Hi) as [x Hx].
  rewrite (list_lookup_total_correct _ _ _ Hx).
  rewrite Forall_lookup in Hok. by destruct (Hok _ _ Hx).
Qed.

Section PickLemmas.
Context {RS : RandomSource}.

Lemma locked_or_run lock key rng d (h : heap) :
  tables_intact h → locks_ok h lock →
  ∃ l rng', locked_or lock key rng (TRAITS d) h = (Ok (l, rng'), h)
    ∧ (l < length h)%nat ∧ has_id h l
    ∧ ∀ l0, lock !! key = Some l0 → l = l0.
Proof.
  intros Hh Hlock. unfold locked_or. destruct (lock !! key) as [l0|] eqn:E.
  - destruct (Hlock _ _ E) as [Hl Hid]. exists l0, rng.
    rewrite bind_deref, (has_id_truthy _ Hid). split_and!; [done..|].
    by intros ? [= <-].
  - destruct (weighted_choice_member rng (TRAITS d) h) as (l & rng' & Eq & Hl).
    { by destruct d. }
    { by apply TRAITS_convertible. }
    exists l, rng'. split_and!; [done | | by eapply TRAITS_has_id | done].
    apply TRAITS_bounded in Hl. apply tables_intact_length in Hh. lia.
Qed.

Lemma pick_all_run name timeline lock salt (h : heap) :
  tables_intact h → locks_ok h lock →
  ∃ p ext, pick_all name timeline lock salt h = (Ok p, h ++ ext)
    ∧ wf_picks (h ++ ext) p
    ∧ (∀ l, lock !! "relationship" = Some l → relationship p = l)
    ∧ (∀ l, lock !! "career" = Some l → career p = l).
Proof.
  intros Hh Hlock. unfold pick_all.
  destruct (locked_or_run lock "career" (rng_for name timeline salt) Career h)
    as (lc & r1 & E1 & Hc1 & Hc2 & Hc3); [done..|].
  erewrite bind_ok by exact E1.
  destruct (locked_or_run lock "fame" r1 Fame h)
    as (lf & r2 & E2 & Hf1 & Hf2 & _); [done..|].
  erewrite bind_ok by exact E2.
  destruct (locked_or_run lock "relationship" r2 Relationship h)
    as (lr & r3 & E3 & Hr1 & Hr2 & Hr3); [done..|].
  erewrite bind_ok by exact E3.
  destruct (locked_or_run lock "car" r3 Car h)
    as (la & r4 & E4 & Ha1 & Ha2 & _); [done..|].
  erewrite bind_ok by exact E4.
  destruct (locked_or_run lock "house" r4 House h)
    as (lh & r5 & E5 & Hh1 & Hh2 & _); [done..|].
  erewrite bind_ok by exact E5.
  destruct Hc2 as [cid Hcid]. destruct Hr2 as [rid Hrid].
  edestruct (apply_rules_run (mkPicks lc la lh lr lf []) r5 h rid cid)
    as (ci & hi & fi & r6 & Hci & Hhi & Hfi & E6); [done | | done.. |].
  { by intros []. }
  cbv zeta in E6. erewrite bind_ok by exact E6.
  cbn [career car house relationship fame trace] in *.
  eexists _, _. split; [reflexivity|]. split_and!; [| done..].
  set (carA := car_pool_after _ _). set (houseA := house_pool_after _ _ _).
  set (fires := _ || _). set (fameA := fame_pool_after _).
  assert (HlA : length carA = 5%nat) by apply length_car_pool_after.
  assert (HlH : length houseA = 5%nat) by apply length_house_pool_after.
  assert (HlF : length fameA = 5%nat) by apply length_fame_pool_after.
  intros d. rewrite !length_app, HlA, HlH, HlF.
  destruct d; cbn [getattr career car house relationship fame].
  - split; [lia | by apply has_id_app; [| exists cid]].
  - split; [lia | apply has_id_segment; [apply car_pool_after_ok | lia]].
  - split; [lia|]. rewrite (app_assoc h).
    replace (length h + 5)%nat with (length (h ++ carA)) by (rewrite length_app; lia).
    apply has_id_segment; [apply house_pool_after_ok | lia].
  - split; [lia | by apply has_id_app; [| exists rid]].
  - clearbody fires. destruct fires.
    + split; [lia|]. rewrite (app_assoc h), (app_assoc (h ++ carA)).
      replace (length h + 10)%nat with (length ((h ++ carA) ++ houseA))
        by (rewrite !length_app; lia).
      rewrite <- (app_nil_r fameA).
      apply has_id_segment; [apply fame_pool_after_ok | lia].
    + split; [lia | by apply has_id_app].
Qed.
End PickLemmas.

(** ** Monte Carlo aggregation *)

Lemma tally_sum_insert_fresh (c : gmap string Z) k v :
  c !! k = None → tally_sum (<[k := v]> c) = v + tally_sum c.
Proof.
  intros Hk. unfold tally_sum. rewrite map_fold_insert_L; [done | | done].
  intros. lia.
Qed.

Lemma tally_sum_bump (c : gmap string Z) k :
  tally_sum (<[k := default 0 (c !! k) + 1]> c) = tally_sum c + 1.
Proof.
  destruct (c !! k) as [v|] eqn:E; simpl.
  - rewrite <- (insert_delete_id c k v E) at 2.
    rewrite <- insert_delete_eq.
    rewrite !tally_sum_insert_fresh by apply lookup_delete_eq. lia.
  - rewrite tally_sum_insert_fresh by done. lia.
Qed.

Lemma NoDup_DOMAINS : NoDup DOMAINS.
Proof. apply (bool_decide_unpack _). reflexivity. Qed.

Lemma elem_of_DOMAINS d : d ∈ DOMAINS.
Proof. destruct d; repeat constructor. Qed.

Lemma domain_name_inj : Inj (=) (=) domain_name.
Proof. intros [] [] E; done. Qed.

Lemma tally_run counts d key :
  has_domains counts →
  ∃ counts', tally counts (domain_name d) key = Ok counts'
    ∧ has_domains counts'
    ∧ ∀ d', domain_sum counts' d'
            = domain_sum counts d' + (if bool_decide (d' = d) then 1 else 0).
Proof.
  intros Hk. unfold tally. destruct (Hk d) as [c Hc]. rewrite Hc.
  eexists. split; [reflexivity|]. split.
  - intros d'. rewrite lookup_insert. case_decide; eauto.
  - intros d'. unfold domain_sum. rewrite lookup_insert.
    case_bool_decide as Hd.
    + subst d'. rewrite decide_True by done. rewrite Hc. simpl. apply tally_sum_bump.
    + rewrite decide_False; [lia|]. intros E. by apply domain_name_inj in E.
Qed.

Section AggregateLemmas.
Context {RS : RandomSource}.

Lemma tally_all_run p (h : heap) ds : ∀ counts,
  (∀ d, has_id h (getattr p d)) → has_domains counts → NoDup ds →
  ∃ counts', tally_all counts p ds h = (Ok counts', h)
    ∧ has_domains counts'
    ∧ ∀ d, domain_sum counts' d
           = domain_sum counts d + (if bool_decide (d ∈ ds) then 1 else 0).
Proof.
  induction ds as [|d ds IH]; intros counts Hp Hk Hnd.
  - exists counts. split_and!; [done..|]. intros d. simpl. lia.
  - apply NoDup_cons in Hnd as [Hd Hnd]. cbn [tally_all].
    destruct (Hp d) as [key Hkey].
    erewrite bind_ok by (apply getitem_id_ok, Hkey).
    destruct (tally_run counts d key Hk) as (c1 & -> & Hk1 & Hs1).
    destruct (IH c1 Hp Hk1 Hnd) as (c2 & -> & Hk2 & Hs2).
    exists c2. split_and!; [done..|]. intros d'. rewrite Hs2, Hs1.
    rewrite (bool_decide_ext (d' ∈ d :: ds) (d' = d ∨ d' ∈ ds)) by apply elem_of_cons.
    destruct (decide (d' = d)) as [-> | Hne].
    + rewrite (bool_decide_true (d = d)) by done.
      rewrite (bool_decide_false (d ∈ ds)) by done.
      rewrite bool_decide_true by (by left). lia.
    + rewrite (bool_decide_false (d' = d)) by done.
      destruct (decide (d' ∈ ds)) as [Hin | Hnin].
      * rewrite (bool_decide_true (d' ∈ ds)) by done.
        rewrite bool_decide_true by (by right). lia.
      * rewrite (bool_decide_false (d' ∈ ds)) by done.
        rewrite bool_decide_false by (by intros [|]). lia.
Qed.

Lemma monte_carlo_loop_run name timeline trials : ∀ counts (h : heap),
  tables_intact h → has_domains counts →
  ∃ counts' ext,
    monte_carlo_loop name timeline trials counts h = (Ok counts', h ++ ext)
    ∧ has_domains counts'
    ∧ ∀ d, domain_sum counts' d = domain_sum counts d + Z.of_nat (length trials).
Proof.
  induction trials as [|i trials IH]; intros counts h Hh Hk.
  - exists counts, []. rewrite app_nil_r. split_and!; [done..|]. intros d. simpl. lia.
  - cbn [monte_carlo_loop].
    destruct (pick_all_run name timeline ∅ ("mc:" +:+ pretty (Z.of_nat i)) h)
      as (p & ext & E & Hwf & _); [done | by intros ?? | ].
    erewrite bind_ok by exact E.
    destruct (tally_all_run p (h ++ ext) DOMAINS counts) as (c1 & E1 & Hk1 & Hs1);
      [intros d; apply Hwf | done | apply NoDup_DOMAINS |].
    erewrite bind_ok by exact E1.
    destruct (IH c1 (h ++ ext)) as (c2 & ext2 & E2 & Hk2 & Hs2);
      [by apply tables_intact_app | done |].
    exists c2, (ext ++ ext2). rewrite app_assoc. split_and!; [done..|].
    intros d. rewrite Hs2, Hs1. rewrite bool_decide_true by apply elem_of_DOMAINS.
    simpl length. lia.
Qed.

Lemma monte_carlo_run name timeline n (h : heap) :
  tables_intact h →
  ∃ counts ext,
    monte_carlo name timeline n h = (Ok counts, h ++ ext)
    ∧ ∀ d, ∃ c, counts !! domain_name d = Some c ∧ tally_sum c = Z.max 0 n.
Proof.
  intros Hh. unfold monte_carlo.
  edestruct (monte_carlo_loop_run name timeline (seq 0 (Z.to_nat n)))
    as (counts & ext & E & Hk & Hs); [exact Hh | | ].
  2:{ exists counts, ext. split; [exact E|]. intros d.
      destruct (Hk d) as [c Hc]. exists c. split; [done|].
      specialize (Hs d). unfold domain_sum in Hs. rewrite Hc in Hs. simpl in Hs.
      rewrite Hs, length_seq. destruct d; vm_compute tally_sum; lia. }
  intros d. destruct d; vm_compute; eauto.
Qed.
End AggregateLemmas.

(** ** The prediction is a function of (name, timeline, salt) *)

Lemma TRAITS_seq d : TRAITS d = seq (table_start d) (length (table d)).
Proof. by destruct d. Qed.

Lemma weights_app (h ext : heap) items :
  Forall (λ l, (l < length h)%nat) items → weights (h ++ ext) items = weights h items.
Proof.
  intros H. unfold weights. apply map_ext_Forall.
  eapply Forall_impl; [exact H|]. intros l Hl. simpl. by rewrite lookup_total_app_l.
Qed.

Lemma weights_tables h d : tables_intact h → weights h (TRAITS d) = item_weights (table d).
Proof.
  intros [ext ->]. rewrite weights_app.
  - by destruct d.
  - apply Forall_forall. intros l Hl. by eapply TRAITS_bounded.
Qed.

Lemma table_lookup h d i :
  tables_intact h → (i < length (table d))%nat →
  h !!! (table_start d + i)%nat = table d !!! i.
Proof.
  intros Hh Hi. rewrite tables_intact_lookup by (done || destruct d; simpl in *; lia).
  destruct d; simpl in Hi;
    repeat (destruct i as [|i]; [reflexivity | try lia]).
Qed.

Section PredictionLemmas.
Context {RS : RandomSource}.

Lemma weighted_choice_table d rng (h : heap) :
  tables_intact h →
  weighted_choice rng (TRAITS d) h
  = (Ok ((table_start d + (choose rng (item_weights (table d))).1)%nat,
         (choose rng (item_weights (table d))).2), h).
Proof.
  intros Hh. rewrite <- (weights_tables h d Hh), TRAITS_seq.
  apply weighted_choice_seq; [destruct d; simpl; lia|].
  rewrite <- TRAITS_seq. by apply TRAITS_convertible.
Qed.

Lemma choose_table_lt rng d :
  ((choose rng (item_weights (table d))).1 < length (table d))%nat.
Proof.
  pose proof (choose_lt rng (item_weights (table d))) as H.
  unfold item_weights in H at 3. rewrite length_map in H.
  apply H. by destruct d.
Qed.

Lemma pick_all_prediction name timeline salt (h : heap) :
  tables_intact h →
  ∃ p h', pick_all name timeline ∅ salt h = (Ok p, h')
    ∧ ((λ d, h' !!! getattr p d) <$> DOMAINS, trace p) = prediction name timeline salt.
Proof.
  intros Hh. unfold pick_all, locked_or. rewrite !lookup_empty.
  set (c := choose (rng_for name timeline salt) (item_weights career_table)).
  set (f := choose c.2 (item_weights fame_table)).
  set (r := choose f.2 (item_weights relationship_table)).
  set (a := choose r.2 (item_weights car_table)).
  set (hh := choose a.2 (item_weights house_table)).
  erewrite bind_ok by (by apply (weighted_choice_table Career)).
  cbv beta iota. cbn [table]. fold c.
  erewrite bind_ok by (by apply (weighted_choice_table Fame)).
  cbv beta iota. cbn [table]. fold f.
  erewrite bind_ok by (by apply (weighted_choice_table Relationship)).
  cbv beta iota. cbn [table]. fold r.
  erewrite bind_ok by (by apply (weighted_choice_table Car)).
  cbv beta iota. cbn [table]. fold a.
  erewrite bind_ok by (by apply (weighted_choice_table House)).
  cbv beta iota. cbn [table]. fold hh.
  assert (Hc : (c.1 < 8)%nat) by apply (choose_table_lt _ Career).
  assert (Hf : (f.1 < 5)%nat) by apply (choose_table_lt _ Fame).
  assert (Hr : (r.1 < 5)%nat) by apply (choose_table_lt _ Relationship).
  assert (Ha : (a.1 < 5)%nat) by apply (choose_table_lt _ Car).
  assert (Hho : (hh.1 < 5)%nat) by apply (choose_table_lt _ House).
  assert (Hlen : (28 ≤ length h)%nat) by apply (tables_intact_length h Hh).
  assert (∃ rid, i_id (relationship_table !!! r.1) = Some rid) as [rid Hrid].
  { destruct (lookup_lt_is_Some_2 relationship_table r.1 Hr) as [d Hd].
    rewrite (list_lookup_total_correct _ _ _ Hd).
    pose proof (table_ok Relationship) as Hok. rewrite Forall_lookup in Hok.
    by destruct (Hok _ _ Hd) as [? _]. }
  assert (is_Some (i_id (career_table !!! c.1))) as Hcid.
  { destruct (lookup_lt_is_Some_2 career_table c.1 Hc) as [d Hd].
    rewrite (list_lookup_total_correct _ _ _ Hd).
    pose proof (table_ok Career) as Hok. rewrite Forall_lookup in Hok.
    by destruct (Hok _ _ Hd) as [? _]. }
  erewrite bind_ok.
  2:{ apply (apply_rules_eq _ _ _ rid); [done | | |];
        cbn [career car house relationship fame getattr].
      - intros []; cbn [getattr career car house relationship fame table_start]; lia.
      - by rewrite (table_lookup h Relationship).
      - by rewrite (table_lookup h Career). }
  cbv beta iota.
  eexists _, _. split; [reflexivity|].
  cbn [career car house relationship fame trace app].
  rewrite (table_lookup h Career), (table_lookup h Fame), (table_lookup h House)
    by done.
  unfold prediction. cbv zeta. fold c f r a hh. rewrite Hrid.
  simpl (default _ (Some _)).
  set (o := rules_outcome _ _ _ _ _).
  unfold place, DOMAINS.
  cbn [fmap list_fmap getattr career car house relationship fame trace app].
  rewrite (lookup_total_app_l h (o_new o) (0 + c.1)),
    (lookup_total_app_l h (o_new o) (18 + r.1)) by lia.
  pose proof (table_lookup h Career c.1 Hh Hc) as Ec.
  pose proof (table_lookup h Relationship r.1 Hh Hr) as Er.
  pose proof (table_lookup h Fame f.1 Hh Hf) as Ef.
  cbn [table_start table] in Ec, Er, Ef. rewrite Ec, Er.
  rewrite <- Nat.add_assoc, !lookup_top.
  do 5 f_equal.
  destruct (o_fame o) as [fi|]; cbn [from_option].
  - by rewrite <- Nat.add_assoc, lookup_top.
  - rewrite (lookup_total_app_l h (o_new o) (23 + f.1)) by lia.
    by rewrite Ef.
Qed.

(** X1: the pick-set and the trace are functions of (name, timeline, salt):
    two runs of [pick_all] without locks, started in any two stores that
    hold the tables (whatever earlier runs left there), both return, with the
    same trace and, for every domain, the same trait item. *)
Theorem pick_all_deterministic name timeline salt (ext1 ext2 : heap) :
  ∃ p1 h1 p2 h2,
    pick_all name timeline ∅ salt (TRAITS_heap ++ ext1) = (Ok p1, h1)
    ∧ pick_all name timeline ∅ salt (TRAITS_heap ++ ext2) = (Ok p2, h2)
    ∧ trace p1 = trace p2
    ∧ ∀ d, h1 !!! getattr p1 d = h2 !!! getattr p2 d.
Proof.
  destruct (pick_all_prediction name timeline salt (TRAITS_heap ++ ext1))
    as (p1 & h1 & E1 & P1); [by exists ext1|].
  destruct (pick_all_prediction name timeline salt (TRAITS_heap ++ ext2))
    as (p2 & h2 & E2 & P2); [by exists ext2|].
  exists p1, h1, p2, h2. split_and!; [done | done | |].
  - rewrite <- P2 in P1. by injection P1.
  - rewrite <- P2 in P1. injection P1 as Hc Ha Hh Hr Hf _. by intros [].
Qed.
End PredictionLemmas.

(** ** The rule engine, the reroll and the aggregator *)

Lemma rules_trace_tail lux urbanish solo city fires :
  ∃ rest, rules_trace lux urbanish solo city fires
          = [(if lux then luxury_boost_msg else luxury_damped_msg)] ++ rest
    ∧ (luxury_boost_msg ∉ rest) ∧ (luxury_damped_msg ∉ rest).
Proof.
  eexists. split; [reflexivity|].
  destruct urbanish, solo, city, lux, fires; split;
    apply (bool_decide_unpack _); vm_compute; reflexivity.
Qed.

Lemma ultra_lux_copy lux urbanish :
  car_pool_after lux urbanish !!! 1%nat
  = set_weight (if lux then 3 + 3 else Z.max 1 (3 - 2)) (car_table !!! 1%nat).
Proof. destruct lux, urbanish; reflexivity. Qed.

Section EngineTheorems.
Context {RS : RandomSource}.


Lemma reroll_locks domain base d :
  domain_name d ≠ domain →
  (list_to_map ((λ d, (domain_name d, getattr base d))
                  <$> filter (λ d, domain_name d ≠ domain) DOMAINS)
     : gmap string loc) !! domain_name d = Some (getattr base d).
Proof.
  intros Hd. apply elem_of_list_to_map_1.
  - rewrite <- list_fmap_compose.
    pose proof domain_name_inj.
    apply (NoDup_fmap_2 domain_name), NoDup_filter, NoDup_DOMAINS.
  - apply (list_elem_of_fmap_2 (λ d, (domain_name d, getattr base d))).
    apply list_elem_of_filter. split; [done | apply elem_of_DOMAINS].
Qed.

Lemma reroll_locks_ok domain base (h : heap) :
  wf_picks h base →
  locks_ok h (list_to_map ((λ d, (domain_name d, getattr base d))
                             <$> filter (λ d, domain_name d ≠ domain) DOMAINS)).
Proof.
  intros Hwf key l Hl. apply elem_of_list_to_map_2 in Hl.
  apply list_elem_of_fmap in Hl as (d & [= -> ->] & _). apply Hwf.
Qed.

(** C8: rerolling any target domain other than "relationship" returns a
    pick-set whose relationship item is the one of the base pick-set: the same
    object, with the same contents. *)
Theorem reroll_keeps_relationship name timeline domain base (h : heap) :
  tables_intact h → wf_picks h base → domain ≠ "relationship" →
  ∃ p h', reroll_section name timeline domain base h = (Ok p, h')
    ∧ relationship p = relationship base
    ∧ h' !!! relationship p = h !!! relationship base.
Proof.
  intros Hh Hwf Hd. unfold reroll_section.
  edestruct pick_all_run as (p & ext & E & _ & Hrel & _);
    [exact Hh | by apply (reroll_locks_ok domain) |].
  exists p, (h ++ ext). split; [exact E|].
  pose proof (reroll_locks domain base Relationship) as Hl.
  cbn [domain_name getattr] in Hl.
  rewrite (Hrel _ (Hl (not_eq_sym Hd))). split; [done|].
  apply lookup_total_app_l. apply (Hwf Relationship).
Qed.

(** C7: every run of the rule engine appends exactly one entry for the car
    prestige/fame rule, right after the entries already there: the boost entry
    when prestige >= 8 and fame level >= 7, the damped entry otherwise, and no
    further entry of either kind.  The working copy of the ultra-luxury EV
    (the second object of the car pool) ends with weight 3 + 3 in the first
    case and max 1 (3 - 2) in the second, 3 being its weight in the table,
    which stays as it is. *)
Theorem car_luxury_rule_fires_once p rng (h : heap) :
  tables_intact h → wf_picks h p →
  let lux := (8 <=? default 5 (i_prestige (h !!! career p)))
             && (7 <=? default 1 (i_level (h !!! fame p))) in
  ∃ p' rng' h' rest,
    apply_rules p rng h = (Ok (p', rng'), h')
    ∧ trace p' = trace p ++ [(if lux then luxury_boost_msg else luxury_damped_msg)]
                         ++ rest
    ∧ (luxury_boost_msg ∉ rest) ∧ (luxury_damped_msg ∉ rest)
    ∧ i_id (h' !!! (length h + 1)%nat) = Some "ultra_lux_ev"
    ∧ i_weight (h' !!! (length h + 1)%nat)
      = Some (if lux then 3 + 3 else Z.max 1 (3 - 2))
    ∧ i_weight (h' !!! 9%nat) = Some 3.
Proof.
  intros Hh Hwf lux.
  destruct (Hwf Relationship) as [_ [rid Hrid]].
  destruct (Hwf Career) as [_ [cid Hcid]].
  destruct (apply_rules_run p rng h rid cid)
    as (ci & hi & fi & rng' & _ & _ & _ & E); [done | apply Hwf | done..|].
  cbv zeta in E. fold lux in E. rewrite E. clear E.
  edestruct (rules_trace_tail lux) as (rest & Ht & Hb & Hd).
  eexists _, _, _, rest. split; [reflexivity|]. cbn [trace].
  rewrite Ht. split_and!; [done..| | |].
  - rewrite lookup_top, lookup_total_app_l by (rewrite length_car_pool_after; lia).
    by rewrite ultra_lux_copy.
  - rewrite lookup_top, lookup_total_app_l by (rewrite length_car_pool_after; lia).
    by rewrite ultra_lux_copy.
  - rewrite lookup_total_app_l by (apply tables_intact_length in Hh; simpl in *; lia).
    by rewrite tables_intact_lookup by (done || simpl; lia).
Qed.

(** X2: when career prestige >= 8 and fame level >= 7, the rule engine fires
    the luxury boost (never the damped branch) and the penthouse boost. *)
Theorem boosts_fire_together p rng (h : heap) :
  tables_intact h → wf_picks h p →
  8 ≤ default 5 (i_prestige (h !!! career p)) →
  7 ≤ default 1 (i_level (h !!! fame p)) →
  ∃ p' rng' h' added,
    apply_rules p rng h = (Ok (p', rng'), h')
    ∧ trace p' = trace p ++ added
    ∧ luxury_boost_msg ∈ added
    ∧ penthouse_msg ∈ added
    ∧ luxury_damped_msg ∉ added.
Proof.
  intros Hh Hwf Hp Hf.
  destruct (Hwf Relationship) as [_ [rid Hrid]].
  destruct (Hwf Career) as [_ [cid Hcid]].
  destruct (apply_rules_run p rng h rid cid)
    as (ci & hi & fi & rng' & _ & _ & _ & E); [done | apply Hwf | done..|].
  cbv zeta in E. rewrite E. clear E.
  apply Z.leb_le in Hp, Hf. rewrite Hp, Hf. cbn [andb].
  eexists _, _, _, _. split; [reflexivity|]. split; [reflexivity|].
  generalize (bool_decide (rid = "solo")).
  generalize (bool_decide ("urban" ∈ tags_of (h !!! house p))
              || bool_decide ("tech" ∈ tags_of (h !!! career p))).
  generalize (bool_decide ("creator" ∈ tags_of (h !!! career p))
              || bool_decide (cid ∈ ["founder"; "cinematic_vfx"])).
  intros fires urbanish solo.
  match goal with |- context [rules_trace _ _ _ ?c _] => generalize c end.
  intros city.
  destruct fires, urbanish, solo, city; split_and!;
    apply (bool_decide_unpack _); vm_compute; reflexivity.
Qed.
End EngineTheorems.

(** ** The narrative's facts and the order of a set *)

Lemma swap_fmap {A B} (f : A → B) i j (x : list A) :
  swap i j (f <$> x) = f <$> swap i j x.
Proof.
  unfold swap. rewrite !list_lookup_fmap.
  destruct (x !! i), (x !! j); simpl; [| done..].
  by rewrite !list_fmap_insert.
Qed.

Lemma swap_length {A} i j (x : list A) : length (swap i j x) = length x.
Proof. unfold swap. destruct (x !! i), (x !! j); by rewrite ?length_insert. Qed.

Lemma swap_Forall {A} (P : A → Prop) i j (x : list A) :
  Forall P x → Forall P (swap i j x).
Proof.
  intros H. unfold swap.
  destruct (x !! i) as [a|] eqn:Ei, (x !! j) as [b|] eqn:Ej; [| done..].
  pose proof (Forall_lookup_1 _ _ _ _ H Ei). pose proof (Forall_lookup_1 _ _ _ _ H Ej).
  by repeat apply Forall_insert.
Qed.

Section ShuffleLemmas.
Context {RS : RandomSource}.

Lemma shuffle_go_fmap {A B} (f : A → B) i : ∀ rng (x : list A),
  shuffle_go rng i (f <$> x)
  = ((f <$> (shuffle_go rng i x).1), (shuffle_go rng i x).2).
Proof.
  induction i as [|i IH]; intros rng x; simpl; [done|].
  destruct (randbelow rng (S (S i))) as [j rng']. by rewrite swap_fmap, IH.
Qed.

Lemma shuffle_fmap {A B} (f : A → B) rng (x : list A) :
  shuffle rng (f <$> x) = ((f <$> (shuffle rng x).1), (shuffle rng x).2).
Proof. unfold shuffle. by rewrite length_fmap, shuffle_go_fmap. Qed.

Lemma shuffle_go_invariant {A} (P : A → Prop) i : ∀ rng (x : list A),
  Forall P x →
  Forall P (shuffle_go rng i x).1 ∧ length (shuffle_go rng i x).1 = length x.
Proof.
  induction i as [|i IH]; intros rng x Hx; simpl; [done|].
  destruct (randbelow rng (S (S i))) as [j rng'].
  destruct (IH rng' (swap (S i) j x)) as [H1 H2]; [by apply swap_Forall|].
  by rewrite H2, swap_length.
Qed.
End ShuffleLemmas.

Lemma facts_differ_everywhere :
  Forall (λ i, facts_ascending !!! i ≠ facts_descending !!! i) (seq 0 12).
Proof. apply (bool_decide_unpack _). vm_compute. reflexivity. Qed.

Lemma highlights_differ_everywhere :
  Forall (λ i, Forall (λ j,
     highlights [facts_ascending !!! i; facts_ascending !!! j]
     ≠ highlights [facts_descending !!! i; facts_descending !!! j]) (seq 0 12))
    (seq 0 12).
Proof. apply (bool_decide_unpack _). vm_compute. reflexivity. Qed.

Section FactsTheorems.
Context {RS : RandomSource}.

Lemma microfacts_sample order rng :
  microfacts_for order sample_picks rng 2 TRAITS_heap
  = (Ok (take 2 (shuffle rng (options_of order sample_tags)).1), TRAITS_heap).
Proof.
  unfold microfacts_for. rewrite !bind_deref. cbv zeta.
  replace (list_to_set (tags_of (TRAITS_heap !!! career sample_picks))
           ∪ list_to_set (tags_of (TRAITS_heap !!! house sample_picks))
           ∪ list_to_set (tags_of (TRAITS_heap !!! car sample_picks)))
    with (list_to_set sample_tags : gset string)
    by (apply (bool_decide_unpack _); vm_compute; reflexivity).
  fold (options_of order sample_tags). by destruct (shuffle rng _).
Qed.

(** C1: the facts of the narrative depend on the order in which the set of
    tags is iterated.  For the pick-set of the first career, car and house of
    the tables, and for every state of the random source, iterating the tag
    set in ascending and in descending order gives two different fact lists
    and two different "Highlights" lines: the narrative is not a function of
    (name, timeline, salt) alone. *)
Theorem microfacts_depend_on_set_order (rng : Rng) :
  ∃ facts facts',
    microfacts_for ascending_order sample_picks rng 2 TRAITS_heap
      = (Ok facts, TRAITS_heap)
    ∧ microfacts_for descending_order sample_picks rng 2 TRAITS_heap
      = (Ok facts', TRAITS_heap)
    ∧ facts ≠ facts'
    ∧ highlights facts ≠ highlights facts'.
Proof.
  eexists _, _. split; [apply microfacts_sample|]. split; [apply microfacts_sample|].
  change (options_of ascending_order sample_tags)
    with ((λ i, facts_ascending !!! i) <$> seq 0 12).
  change (options_of descending_order sample_tags)
    with ((λ i, facts_descending !!! i) <$> seq 0 12).
  rewrite !shuffle_fmap. cbn [fst].
  destruct (shuffle_go_invariant (λ i, (i < 12)%nat) 11 rng (seq 0 12)) as [Hlt Hlen].
  { apply Forall_forall. intros i Hi%elem_of_seq. lia. }
  change (shuffle_go rng 11 (seq 0 12)) with (shuffle rng (seq 0 12)) in Hlt, Hlen.
  destruct (shuffle rng (seq 0 12)).1 as [|i [|j idx]]; [done..|].
  apply Forall_cons in Hlt as [Hi Hlt]. apply Forall_cons in Hlt as [Hj _].
  cbn [fmap list_fmap take]. split.
  - intros [= E _]. pose proof facts_differ_everywhere as H.
    rewrite Forall_forall in H. apply (H i); [apply elem_of_seq; lia | exact E].
  - pose proof highlights_differ_everywhere as H.
    rewrite Forall_forall in H. specialize (H i ltac:(apply elem_of_seq; lia)).
    rewrite Forall_forall in H. apply H. apply elem_of_seq; lia.
Qed.
End FactsTheorems.

Example microfacts_two_orders :
  (microfacts_for (RS := counter_source) ascending_order sample_picks 0 2 TRAITS_heap).1
  = Ok ["keynoted at a global dev summit"; "mentored young scholars"]
  ∧ (microfacts_for (RS := counter_source) descending_order sample_picks 0 2 TRAITS_heap).1
  = Ok ["uses edge-AI for safety"; "hosts maker nights"].
Proof. split; vm_compute; reflexivity. Qed.

(** ** Examples *)

Lemma tables_intact_initial : tables_intact TRAITS_heap.
Proof. by exists []; rewrite app_nil_r. Qed.

Lemma wf_sample_picks : wf_picks TRAITS_heap sample_picks.
Proof. intros []; (split; [simpl; lia | eexists; reflexivity]). Qed.

(** C2, counterexample: on the empty list the sampler returns (a reference
    to) a new empty dict, and no error. *)
Lemma weighted_choice_empty_no_error :
  weighted_choice (RS := counter_source) 0 [] TRAITS_heap
    = (Ok (28%nat, 0), TRAITS_heap ++ [empty_item])
  ∧ ∀ e, (weighted_choice (RS := counter_source) 0 [] TRAITS_heap).1 ≠ Raise e.
Proof. split; [reflexivity | discriminate]. Qed.

Lemma weighted_choice_all_zero_witness :
  weighted_choice (RS := counter_source) 7 [0; 1]%nat zero_pool = (Ok (0%nat, 7), zero_pool).
Proof.
  apply (weighted_choice_all_zero (RS := counter_source) 7 0%nat [1%nat] zero_pool).
  intros l Hl. apply elem_of_cons in Hl as [-> | Hl]; [reflexivity|].
  apply list_elem_of_singleton in Hl as ->. reflexivity.
Defined.

Lemma weighted_choice_total_witness :
  ∃ it rng', weighted_choice (RS := counter_source) 3 (TRAITS Car) TRAITS_heap
             = (Ok (it, rng'), TRAITS_heap) ∧ it ∈ TRAITS Car.
Proof.
  destruct (weighted_choice_total (RS := counter_source) 3 (TRAITS Car) TRAITS_heap)
    as [_ Hok]; [discriminate|].
  destruct Hok as (it & rng' & E & Hit & _); [reflexivity|].
  eauto.
Defined.

(** C10, counterexample: a one-item list whose weight is 10^400, an int that
    [float] does not convert: the sampler raises OverflowError. *)
Lemma weighted_choice_raises_overflow :
  [0%nat] ≠ []
  ∧ weighted_choice (RS := counter_source) 0 [0%nat] [heavy_item]
    = (Raise OverflowError, [heavy_item]).
Proof. split; [discriminate | by vm_compute]. Qed.


Lemma reroll_keeps_relationship_witness :
  ∃ p h',
    reroll_section (RS := counter_source) "Ada" "prime" "car" sample_picks TRAITS_heap
      = (Ok p, h')
    ∧ relationship p = 18%nat
    ∧ h' !!! relationship p = relationship_item "married_kids" 7 "married with kids".
Proof.
  apply (reroll_keeps_relationship (RS := counter_source) "Ada" "prime" "car"
           sample_picks TRAITS_heap tables_intact_initial wf_sample_picks).
  discriminate.
Defined.

Lemma car_luxury_rule_fires_once_witness :
  ∃ p' rng' h' rest,
    apply_rules (RS := counter_source) sample_picks 0 TRAITS_heap = (Ok (p', rng'), h')
    ∧ trace p' = [luxury_damped_msg] ++ rest
    ∧ i_weight (h' !!! 29%nat) = Some 1.
Proof.
  destruct (car_luxury_rule_fires_once (RS := counter_source) sample_picks 0 TRAITS_heap
              tables_intact_initial wf_sample_picks)
    as (p' & rng' & h' & rest & E & Ht & _ & _ & _ & Hw & _).
  exists p', rng', h', rest. split; [exact E|]. split; [exact Ht | exact Hw].
Defined.

Lemma boosts_fire_together_witness :
  ∃ p' rng' h' added,
    apply_rules (RS := counter_source) (mkPicks 0 8 13 18 26 []) 0 TRAITS_heap
      = (Ok (p', rng'), h')
    ∧ trace p' = added
    ∧ luxury_boost_msg ∈ added
    ∧ penthouse_msg ∈ added.
Proof.
  destruct (boosts_fire_together (RS := counter_source) (mkPicks 0 8 13 18 26 []) 0
              TRAITS_heap tables_intact_initial)
    as (p' & rng' & h' & added & E & Ht & Hb & Hp & _).
  - intros []; (split; [simpl; lia | eexists; reflexivity]).
  - vm_compute. discriminate.
  - vm_compute. discriminate.
  - exists p', rng', h', added.
    split; [exact E|]. split; [exact Ht|]. split; [exact Hb | exact Hp].
Defined.

(** ** Locks, and what a prediction picks again *)

Lemma car_pool_copy lux urbanish i :
  (i < 5)%nat → copy_of Car (car_pool_after lux urbanish !!! i).
Proof.
  intros Hi. exists i. destruct lux, urbanish;
    repeat (destruct i as [|i]; [eexists; split; [simpl; lia | reflexivity] | try lia]).
Qed.

Lemma house_pool_copy solo city lux i :
  (i < 5)%nat → copy_of House (house_pool_after solo city lux !!! i).
Proof.
  intros Hi. exists i. destruct solo, city, lux;
    repeat (destruct i as [|i]; [eexists; split; [simpl; lia | reflexivity] | try lia]).
Qed.

Lemma fame_pool_copy fires i :
  (i < 5)%nat → copy_of Fame (fame_pool_after fires !!! i).
Proof.
  intros Hi. exists i. destruct fires;
    repeat (destruct i as [|i]; [eexists; split; [simpl; lia | reflexivity] | try lia]).
Qed.

Lemma table_item_copy d i : (i < length (table d))%nat → copy_of d (table d !!! i).
Proof.
  intros Hi. exists i. destruct d; simpl in Hi;
    repeat (destruct i as [|i]; [eexists; split; [simpl; lia | reflexivity] | try lia]).
Qed.

Lemma TRAITS_copy d l (h : heap) : tables_intact h → l ∈ TRAITS d → copy_of d (h !!! l).
Proof.
  intros Hh Hl. rewrite TRAITS_seq in Hl. apply elem_of_seq in Hl as [H1 H2].
  replace l with (table_start d + (l - table_start d))%nat by lia.
  rewrite table_lookup by (done || lia). apply table_item_copy. lia.
Qed.

Lemma lookup_seg1 (h a rest : heap) i :
  (i < length a)%nat → (h ++ a ++ rest) !!! (length h + i)%nat = a !!! i.
Proof. intros Hi. by rewrite lookup_top, lookup_total_app_l. Qed.

Lemma lookup_seg2 (h a b rest : heap) i :
  length a = 5%nat → (i < length b)%nat →
  (h ++ a ++ b ++ rest) !!! (length h + 5 + i)%nat = b !!! i.
Proof.
  intros Ha Hi. rewrite (app_assoc h).
  replace (length h + 5)%nat with (length (h ++ a)) by (rewrite length_app; lia).
  by apply lookup_seg1.
Qed.

Lemma lookup_seg3 (h a b c : heap) i :
  length a = 5%nat → length b = 5%nat → (i < length c)%nat →
  (h ++ a ++ b ++ c) !!! (length h + 10 + i)%nat = c !!! i.
Proof.
  intros Ha Hb Hi. rewrite (app_assoc h), (app_assoc (h ++ a)).
  replace (length h + 10)%nat with (length ((h ++ a) ++ b)) by (rewrite !length_app; lia).
  rewrite <- (app_nil_r c). rewrite lookup_seg1 by done. by rewrite app_nil_r.
Qed.

Lemma car_pool_weights lux urbanish : Forall weight_positive (car_pool_after lux urbanish).
Proof.
  destruct lux, urbanish; repeat constructor; (eexists; split; [reflexivity | by vm_compute]).
Qed.

Lemma house_pool_weights solo city lux :
  Forall weight_positive (house_pool_after solo city lux).
Proof.
  destruct solo, city, lux; repeat constructor;
    (eexists; split; [reflexivity | by vm_compute]).
Qed.

Lemma fame_pool_weights fires : Forall weight_positive (fame_pool_after fires).
Proof.
  destruct fires; repeat constructor; (eexists; split; [reflexivity | by vm_compute]).
Qed.

Lemma rules_trace_length lux urbanish solo city fires :
  (1 ≤ length (rules_trace lux urbanish solo city fires) ≤ 6)%nat.
Proof. destruct lux, urbanish, solo, city, fires; simpl; lia. Qed.

Lemma bind_raise {A B} (m : M A) (k : A → M B) h e h' :
  m h = (Raise e, h') → (m ≫= k) h = (Raise e, h').
Proof. intros E. rewrite bind_eq, E. reflexivity. Qed.

Lemma getitem_id_none l (h : heap) :
  i_id (h !!! l) = None → getitem_id l h = (Raise (KeyError "id"), h).
Proof. intros E. unfold getitem_id. by rewrite bind_deref, E. Qed.

Section Engine.
Context {RS : RandomSource}.


(** What a run of the rule engine returns, with the conditions read off
    the dicts: the input pick-set's and the re-picked car's. *)
Lemma apply_rules_shape p rng (h : heap) :
  tables_intact h → wf_picks h p →
  ∃ p' rng' ext,
    apply_rules p rng h = (Ok (p', rng'), h ++ ext)
    ∧ career p' = career p ∧ relationship p' = relationship p
    ∧ (length h ≤ car p' < length h + length ext)%nat
    ∧ (length h ≤ house p' < length h + length ext)%nat
    ∧ car p' ≠ house p'
    ∧ copy_of Car ((h ++ ext) !!! car p')
    ∧ copy_of House ((h ++ ext) !!! house p')
    ∧ (if creator_or_founder (h !!! career p)
       then (length h ≤ fame p' < length h + length ext)%nat
            ∧ copy_of Fame ((h ++ ext) !!! fame p')
       else fame p' = fame p)
    ∧ trace p' = trace p
        ++ rules_trace (lux_of (h !!! career p) (h !!! fame p))
             (urbanish_of (h !!! house p) (h !!! career p))
             (solo_of (h !!! relationship p))
             (city_of ((h ++ ext) !!! car p'))
             (creator_or_founder (h !!! career p)).
Proof.
  intros Hh Hp.
  destruct (Hp Relationship) as [_ [rid Hrid]]. destruct (Hp Career) as [_ [cid Hcid]].
  cbn [getattr] in Hrid, Hcid.
  edestruct (apply_rules_run p rng h rid cid)
    as (ci & hi & fi & r6 & Hci & Hhi & Hfi & E6); [done | | done.. |].
  { intros d. apply Hp. }
  cbv zeta in E6.
  unfold creator_or_founder, lux_of, urbanish_of, solo_of, city_of.
  rewrite Hrid, Hcid. simpl (default _ (Some _)).
  rewrite (bool_decide_ext (Some rid = Some "solo") (rid = "solo"))
    by (split; [by intros [= ->] | by intros ->]).
  revert E6.
  set (lux := _ && _). set (urbanish := bool_decide ("urban" ∈ _) || _).
  set (solo := bool_decide (rid = _)).
  set (fires := bool_decide ("creator" ∈ _) || _). set (carA := car_pool_after _ _).
  set (city := bool_decide (_ ∈ ["no_car_city"; _])).
  set (houseA := house_pool_after _ _ _).
  set (fameA := fame_pool_after _). intros E6.
  assert (HlA : length carA = 5%nat) by apply length_car_pool_after.
  assert (HlH : length houseA = 5%nat) by apply length_house_pool_after.
  assert (HlF : length fameA = 5%nat) by apply length_fame_pool_after.
  eexists _, _, _. split; [exact E6|].
  cbn [career car house relationship fame trace].
  rewrite !length_app, HlA, HlH, HlF.
  rewrite lookup_seg1 by lia. rewrite lookup_seg2 by lia.
  split_and!; [done | done | lia.. | | | | ].
  - apply car_pool_copy, Hci.
  - apply house_pool_copy, Hhi.
  - clearbody fires. destruct fires; [|done]. split; [lia|].
    rewrite lookup_seg3 by lia. apply fame_pool_copy, Hfi.
  - done.
Qed.


Lemma locked_or_falsy lock key rng items (h : heap) :
  (∀ l, lock !! key = Some l → truthy (h !!! l) = false) →
  locked_or lock key rng items h = weighted_choice rng items h.
Proof.
  intros Hf. unfold locked_or. destruct (lock !! key) as [l|] eqn:E; [|done].
  by rewrite bind_deref, (Hf l).
Qed.

(** One unlocked pick of [pick_all], with and without the empty locks. *)
Lemma locked_or_step lock key rng d (k k' : loc * Rng → M Picks) (h : heap) :
  (∀ l, lock !! key = Some l → truthy (h !!! l) = false) →
  (∀ r, k r h = k' r h) →
  (locked_or lock key rng (TRAITS d) ≫= k) h
  = (locked_or ∅ key rng (TRAITS d) ≫= k') h.
Proof.
  intros Hf Hk. rewrite !bind_eq, locked_or_falsy by done.
  rewrite (locked_or_falsy ∅) by (intros l Hl; by rewrite lookup_empty in Hl).
  pose proof (weighted_choice_store rng (TRAITS d) h) as Hs.
  destruct (weighted_choice rng (TRAITS d) h) as [[r|e] h'].
  - simpl in Hs. rewrite Hs by (by destruct d). apply Hk.
  - reflexivity.
Qed.

Lemma locked_or_start lock key rng d (h : heap) :
  tables_intact h → locks_ok h lock →
  ∃ l rng', locked_or lock key rng (TRAITS d) h = (Ok (l, rng'), h)
    ∧ (l < length h)%nat ∧ has_id h l
    ∧ (∀ l0, lock !! key = Some l0 → l = l0)
    ∧ (lock !! key = None → l ∈ TRAITS d).
Proof.
  intros Hh Hlock. unfold locked_or. destruct (lock !! key) as [l0|] eqn:E.
  - destruct (Hlock _ _ E) as [Hl Hid]. exists l0, rng.
    rewrite bind_deref, (has_id_truthy _ Hid). split_and!; [done.. | | done].
    by intros ? [= <-].
  - destruct (weighted_choice_member rng (TRAITS d) h) as (l & rng' & Eq & Hl);
      [by destruct d | by apply TRAITS_convertible |].
    exists l, rng'. split_and!; [done | | by eapply TRAITS_has_id | done..].
    apply TRAITS_bounded in Hl. apply tables_intact_length in Hh. lia.
Qed.

(** The pick-set [pick_all] hands to the rule engine. *)
Lemma pick_all_start name timeline lock salt (h : heap) :
  tables_intact h → locks_ok h lock →
  ∃ p0 rng0,
    wf_picks h p0 ∧ trace p0 = []
    ∧ (∀ d l, lock !! domain_name d = Some l → getattr p0 d = l)
    ∧ (∀ d, lock !! domain_name d = None → getattr p0 d ∈ TRAITS d)
    ∧ pick_all name timeline lock salt h
      = ('(p, _) ← apply_rules p0 rng0; mret p) h.
Proof.
  intros Hh Hlock. unfold pick_all.
  destruct (locked_or_start lock "career" (rng_for name timeline salt) Career h)
    as (lc & r1 & E1 & Hc1 & Hc2 & Hc3 & Hc4); [done..|].
  erewrite bind_ok by exact E1.
  destruct (locked_or_start lock "fame" r1 Fame h)
    as (lf & r2 & E2 & Hf1 & Hf2 & Hf3 & Hf4); [done..|].
  erewrite bind_ok by exact E2.
  destruct (locked_or_start lock "relationship" r2 Relationship h)
    as (lr & r3 & E3 & Hr1 & Hr2 & Hr3 & Hr4); [done..|].
  erewrite bind_ok by exact E3.
  destruct (locked_or_start lock "car" r3 Car h)
    as (la & r4 & E4 & Ha1 & Ha2 & Ha3 & Ha4); [done..|].
  erewrite bind_ok by exact E4.
  destruct (locked_or_start lock "house" r4 House h)
    as (lh & r5 & E5 & Hh1 & Hh2 & Hh3 & Hh4); [done..|].
  erewrite bind_ok by exact E5.
  exists (mkPicks lc la lh lr lf []), r5. split_and!; [| done | | | done].
  - by intros [].
  - intros [] l Hl; cbn [getattr career car house relationship fame domain_name] in *;
      eauto.
  - intros [] Hl; cbn [getattr career car house relationship fame domain_name] in *;
      eauto.
Qed.

(** [pick_all], as the rule engine run on the pick-set of the locks and
    the first draws. *)
Lemma pick_all_shape name timeline lock salt (h : heap) :
  tables_intact h → locks_ok h lock →
  ∃ p0 p ext,
    pick_all name timeline lock salt h = (Ok p, h ++ ext)
    ∧ wf_picks h p0
    ∧ (∀ d l, lock !! domain_name d = Some l → getattr p0 d = l)
    ∧ (∀ d, lock !! domain_name d = None → getattr p0 d ∈ TRAITS d)
    ∧ career p = career p0 ∧ relationship p = relationship p0
    ∧ (length h ≤ car p < length h + length ext)%nat
    ∧ (length h ≤ house p < length h + length ext)%nat
    ∧ car p ≠ house p
    ∧ copy_of Car ((h ++ ext) !!! car p)
    ∧ copy_of House ((h ++ ext) !!! house p)
    ∧ (if creator_or_founder (h !!! career p0)
       then (length h ≤ fame p < length h + length ext)%nat
            ∧ copy_of Fame ((h ++ ext) !!! fame p)
       else fame p = fame p0)
    ∧ trace p = rules_trace (lux_of (h !!! career p0) (h !!! fame p0))
                  (urbanish_of (h !!! house p0) (h !!! career p0))
                  (solo_of (h !!! relationship p0))
                  (city_of ((h ++ ext) !!! car p))
                  (creator_or_founder (h !!! career p0)).
Proof.
  intros Hh Hlock.
  destruct (pick_all_start name timeline lock salt h Hh Hlock)
    as (p0 & rng0 & Hp0 & Ht0 & Hl1 & Hl2 & E).
  destruct (apply_rules_shape p0 rng0 h Hh Hp0)
    as (p & rng' & ext & E' & Hc & Hr & Hca & Hho & Hne & Hcc & Hhc & Hf & Ht).
  exists p0, p, ext. rewrite E. erewrite bind_ok by exact E'.
  rewrite Ht0 in Ht.
  split; [reflexivity|]. split_and!; try done; lia.
Qed.



(** X5: locks that hold empty dicts are ignored: [pick_all] does what it
    does without locks. *)
Theorem pick_all_empty_locks name timeline lock salt (h : heap) :
  (∀ key l, lock !! key = Some l → truthy (h !!! l) = false) →
  pick_all name timeline lock salt h = pick_all name timeline ∅ salt h.
Proof.
  intros Hf. unfold pick_all.
  apply locked_or_step; [apply Hf|]. intros [career r1].
  apply locked_or_step; [apply Hf|]. intros [fame r2].
  apply locked_or_step; [apply Hf|]. intros [relationship r3].
  apply locked_or_step; [apply Hf|]. intros [car r4].
  apply locked_or_step; [apply Hf|]. intros [house r5].
  reflexivity.
Qed.

(** X6: the car and the house of the result are always re-picked, locked
    or not: they are two objects this call has allocated, each a copy of an
    item of the car table and of the house table but for its weight. *)
Theorem car_and_house_always_repicked name timeline lock salt (h : heap) :
  tables_intact h → locks_ok h lock →
  ∃ p h', pick_all name timeline lock salt h = (Ok p, h')
    ∧ (length h ≤ car p < length h')%nat
    ∧ (length h ≤ house p < length h')%nat
    ∧ car p ≠ house p
    ∧ copy_of Car (h' !!! car p)
    ∧ copy_of House (h' !!! house p).
Proof.
  intros Hh Hlock.
  destruct (pick_all_shape name timeline lock salt h Hh Hlock)
    as (p0 & p & ext & E & _ & _ & _ & _ & _ & Hca & Hho & Hne & Hcc & Hhc & _).
  exists p, (h ++ ext). rewrite length_app. split_and!; try done; lia.
Qed.

(** X7: a lock on the fame is kept exactly when the career is not a creator
    or founder career; when it is, the fame of the result is a new object,
    a copy of an item of the fame table but for its weight. *)
Theorem fame_lock_kept_unless_creator name timeline lock salt (h : heap) lf :
  tables_intact h → locks_ok h lock → lock !! "fame" = Some lf →
  ∃ p h', pick_all name timeline lock salt h = (Ok p, h')
    ∧ if creator_or_founder (h' !!! career p)
      then (length h ≤ fame p < length h')%nat ∧ copy_of Fame (h' !!! fame p)
      else fame p = lf.
Proof.
  intros Hh Hlock Hlf.
  destruct (pick_all_shape name timeline lock salt h Hh Hlock)
    as (p0 & p & ext & E & Hp0 & Hl1 & _ & Hc & _ & _ & _ & _ & _ & _ & Hf & _).
  exists p, (h ++ ext). split; [done|].
  rewrite Hc, lookup_total_app_l by apply (Hp0 Career).
  rewrite length_app. destruct (creator_or_founder _); [done|].
  rewrite Hf. apply (Hl1 Fame). exact Hlf.
Qed.

(** X8: every pick of an unlocked domain is an item of the table of its own
    domain, but for its weight. *)
Theorem picks_come_from_their_tables name timeline lock salt (h : heap) :
  tables_intact h → locks_ok h lock →
  ∃ p h', pick_all name timeline lock salt h = (Ok p, h')
    ∧ ∀ d, lock !! domain_name d = None → copy_of d (h' !!! getattr p d).
Proof.
  intros Hh Hlock.
  destruct (pick_all_shape name timeline lock salt h Hh Hlock)
    as (p0 & p & ext & E & Hp0 & _ & Hl2 & Hc & Hr & _ & _ & _ & Hcc & Hhc & Hf & _).
  exists p, (h ++ ext). split; [done|].
  intros d Hd. destruct d; cbn [getattr]; [| done | done | |].
  - rewrite Hc, lookup_total_app_l by apply (Hp0 Career).
    by apply TRAITS_copy, (Hl2 Career).
  - rewrite Hr, lookup_total_app_l by apply (Hp0 Relationship).
    by apply TRAITS_copy, (Hl2 Relationship).
  - destruct (creator_or_founder _); [apply Hf|].
    rewrite Hf, lookup_total_app_l by apply (Hp0 Fame).
    by apply TRAITS_copy, (Hl2 Fame).
Qed.

(** X9: the trace entries a run of the rule engine appends, in order: the
    car luxury entry (boost or damped) always, then the urban mobility, the
    compact-living, the urban access, the penthouse and the fame entry, each
    exactly when its condition holds of the dicts of the pick-set (the
    urban access one: of the car the run has re-picked). *)
Theorem apply_rules_trace p rng (h : heap) :
  tables_intact h → wf_picks h p →
  ∃ p' rng' h',
    apply_rules p rng h = (Ok (p', rng'), h')
    ∧ trace p' = trace p
        ++ rules_trace (lux_of (h !!! career p) (h !!! fame p))
             (urbanish_of (h !!! house p) (h !!! career p))
             (solo_of (h !!! relationship p))
             (city_of (h' !!! car p'))
             (creator_or_founder (h !!! career p)).
Proof.
  intros Hh Hp.
  destruct (apply_rules_shape p rng h Hh Hp)
    as (p' & rng' & ext & E & _ & _ & _ & _ & _ & _ & _ & _ & Ht).
  by exists p', rng', (h ++ ext).
Qed.

(** X22: the rule engine never makes a weight zero or negative: every dict
    a run of [apply_rules] creates (the working copies of the car, house and
    fame pools) has a weight of at least 1 when the run is over. *)
Theorem apply_rules_weights_positive p rng (h : heap) :
  tables_intact h → wf_picks h p →
  ∃ p' rng' h',
    apply_rules p rng h = (Ok (p', rng'), h')
    ∧ ∀ l, (length h ≤ l < length h')%nat → weight_positive (h' !!! l).
Proof.
  intros Hh Hp.
  destruct (Hp Relationship) as [_ [rid Hrid]]. destruct (Hp Career) as [_ [cid Hcid]].
  cbn [getattr] in Hrid, Hcid.
  edestruct (apply_rules_run p rng h rid cid)
    as (ci & hi & fi & r6 & _ & _ & _ & E6); [done | | done.. |].
  { intros d. apply Hp. }
  cbv zeta in E6. eexists _, _, _. split; [exact E6|].
  intros l Hl. rewrite length_app in Hl.
  replace l with (length h + (l - length h))%nat by lia. rewrite lookup_top.
  eapply (Forall_lookup_total_1 weight_positive); [|lia].
  repeat apply Forall_app_2;
    [apply car_pool_weights | apply house_pool_weights | apply fame_pool_weights].
Qed.
End Engine.

(** ** The draw point and the weights *)

Lemma clamped_nonneg w : (0 <= clamped w)%Q.
Proof.
  destruct w as [z|]; simpl; [|apply Qle_refl].
  destruct (Z.ltb_spec z 0); [apply Qle_refl|].
  unfold Qle. simpl. lia.
Qed.

Lemma clamped_pos w : (0 < clamped w)%Q → ∃ z, w = Some z ∧ 0 < z.
Proof.
  destruct w as [z|]; simpl.
  - destruct (Z.ltb_spec z 0) as [Hz | Hz]; intros Hq.
    + by apply Qlt_irrefl in Hq.
    + exists z. split; [done|]. unfold Qlt in Hq. simpl in Hq. lia.
  - intros Hq. by apply Qlt_irrefl in Hq.
Qed.

Lemma first_reaching_positive pick ws : ∀ c,
  (c < pick)%Q → (pick <= fold_left Qplus ws c)%Q →
  ∃ i w, first_reaching pick c ws = Some i ∧ ws !! i = Some w ∧ (0 < w)%Q.
Proof.
  induction ws as [|w ws IH]; intros c Hlo Hhi; simpl in *.
  - exfalso. lra.
  - destruct (Qle_bool pick (c + w)) eqn:E.
    + apply Qle_bool_iff in E. exists 0%nat, w. split_and!; [done..|]. lra.
    + assert (Hlt : (c + w < pick)%Q).
      { apply Qnot_le_lt. intros Hle. apply Qle_bool_iff in Hle. congruence. }
      destruct (IH (c + w)%Q Hlt Hhi) as (i & w' & -> & Hw & Hpos).
      by exists (S i), w'.
Qed.

Section Draws.
Context {RS : RandomSource}.

(** X10: when the sums are exact in binary64 and the draw point is
    positive and within the total weight, the sampler returns an item of
    positive weight: an item whose weight is zero, negative or missing is
    never picked. *)
Theorem weighted_choice_positive_weight rng items (h : heap) :
  exact_sums h items →
  let ws := weights h items in
  let draw := draw_point rng (fold_left Qplus ws 0%Q) in
  (0 < draw.1)%Q → (draw.1 <= fold_left Qplus ws 0)%Q →
  ∃ it w, weighted_choice rng items h = (Ok (it, draw.2), h)
    ∧ it ∈ items ∧ i_weight (h !!! it) = Some w ∧ 0 < w.
Proof.
  intros [Hno _]. cbv zeta. intros Hlo Hhi. rewrite weighted_choice_eq, Hno. cbv zeta.
  destruct (draw_point rng _) as [pick rng']. cbn [fst snd] in *.
  destruct (first_reaching_positive pick (weights h items) 0%Q Hlo Hhi)
    as (i & w & -> & Hw & Hpos).
  unfold weights in Hw. rewrite list_lookup_fmap in Hw.
  destruct (items !! i) as [it|] eqn:Hit; simplify_eq/=.
  destruct (clamped_pos _ Hpos) as (z & Hz & Hz0).
  exists it, z. split_and!; [done | by eapply list_elem_of_lookup_2 | done..].
Qed.

(** X11: when the sums are exact in binary64 and the draw point is zero,
    the sampler returns the first item of the list, also when its weight is
    zero, negative or missing, and whatever the weights of the others. *)
Theorem weighted_choice_zero_draw rng it rest (h : heap) :
  exact_sums h (it :: rest) →
  let draw := draw_point rng (fold_left Qplus (weights h (it :: rest)) 0%Q) in
  (draw.1 == 0)%Q →
  weighted_choice rng (it :: rest) h = (Ok (it, draw.2), h).
Proof.
  intros [Hno _]. cbv zeta. intros Hz. rewrite weighted_choice_eq, Hno. cbv zeta.
  destruct (draw_point rng _) as [pick rng']. cbn [fst snd] in *.
  cbn [weights map first_reaching].
  assert (E : Qle_bool pick (0 + clamped (i_weight (h !!! it))) = true).
  { apply Qle_bool_iff. pose proof (clamped_nonneg (i_weight (h !!! it))). lra. }
  rewrite E. reflexivity.
Qed.
End Draws.

(** ** Seeds of normalised and of joined strings *)

Lemma app_cons c s t : String c s +:+ t = String c (s +:+ t).
Proof. reflexivity. Qed.

Lemma app_empty_r s : s +:+ "" = s.
Proof. induction s as [|c s IH]; [done|]. by rewrite app_cons, IH. Qed.

Lemma app_assoc_str s t u : s +:+ (t +:+ u) = (s +:+ t) +:+ u.
Proof. induction s as [|c s IH]; [done|]. by rewrite !app_cons, IH. Qed.

Lemma lower_ascii_idem c : Str.lower_ascii (Str.lower_ascii c) = Str.lower_ascii c.
Proof. destruct c as [[] [] [] [] [] [] [] []]; reflexivity. Qed.

Lemma is_space_lower c : Str.is_space (Str.lower_ascii c) = Str.is_space c.
Proof. destruct c as [[] [] [] [] [] [] [] []]; reflexivity. Qed.

Lemma lower_idem s : Str.lower (Str.lower s) = Str.lower s.
Proof. induction s as [|c s IH]; simpl; [done|]. by rewrite lower_ascii_idem, IH. Qed.

Lemma lower_app s t : Str.lower (s +:+ t) = Str.lower s +:+ Str.lower t.
Proof. induction s as [|c s IH]; [done|]. rewrite app_cons. simpl. by rewrite IH. Qed.

Lemma lstrip_lower s : Str.lstrip (Str.lower s) = Str.lower (Str.lstrip s).
Proof.
  induction s as [|c s IH]; simpl; [done|].
  rewrite is_space_lower. by destruct (Str.is_space c).
Qed.

Lemma rev_app_lower s : ∀ t,
  String.rev_app (Str.lower s) (Str.lower t) = Str.lower (String.rev_app s t).
Proof. induction s as [|c s IH]; intros t; simpl; [done|]. by rewrite <- IH. Qed.

Lemma rev_lower s : String.rev (Str.lower s) = Str.lower (String.rev s).
Proof. apply (rev_app_lower s ""). Qed.

Lemma strip_lower s : Str.strip (Str.lower s) = Str.lower (Str.strip s).
Proof.
  unfold Str.strip, Str.rstrip.
  by rewrite lstrip_lower, rev_lower, lstrip_lower, rev_lower.
Qed.

Lemma rev_app_eq s : ∀ t, String.rev_app s t = String.rev s +:+ t.
Proof.
  unfold String.rev. induction s as [|c s IH]; intros t; simpl; [done|].
  rewrite (IH (String c t)), (IH (String c "")).
  by rewrite <- app_assoc_str.
Qed.

Lemma rev_cons c s : String.rev (String c s) = String.rev s +:+ String c "".
Proof. unfold String.rev at 1. simpl. apply rev_app_eq. Qed.

Lemma rev_app_distr s t : String.rev (s +:+ t) = String.rev t +:+ String.rev s.
Proof.
  induction s as [|c s IH].
  - by rewrite app_empty_r.
  - by rewrite app_cons, !rev_cons, IH, app_assoc_str.
Qed.

Lemma rev_involutive s : String.rev (String.rev s) = s.
Proof.
  induction s as [|c s IH]; [done|].
  by rewrite rev_cons, rev_app_distr, IH.
Qed.

Lemma lstrip_suffix s : ∃ pre, s = pre +:+ Str.lstrip s.
Proof.
  induction s as [|c s [pre IH]]; simpl; [by exists ""|].
  destruct (Str.is_space c).
  - exists (String c pre). by rewrite app_cons, <- IH.
  - by exists "".
Qed.

Lemma lstrip_length s : (String.length (Str.lstrip s) ≤ String.length s)%nat.
Proof.
  induction s as [|c s IH]; simpl; [done|].
  destruct (Str.is_space c); simpl; lia.
Qed.

(** A string without leading white space: empty, or its first character is
    no white space. *)
Lemma lstrip_fix_cons c s :
  Str.lstrip (String c s) = String c s ↔ Str.is_space c = false.
Proof.
  simpl. destruct (Str.is_space c); split; try done.
  intros E. pose proof (lstrip_length s) as Hl. rewrite E in Hl. simpl in Hl. lia.
Qed.

Lemma lstrip_idem s : Str.lstrip (Str.lstrip s) = Str.lstrip s.
Proof.
  induction s as [|c s IH]; simpl; [done|].
  destruct (Str.is_space c) eqn:E; [done|]. simpl. by rewrite E.
Qed.

Lemma lstrip_app_fix s t :
  s ≠ "" → Str.lstrip (s +:+ t) = s +:+ t → Str.lstrip s = s.
Proof.
  destruct s as [|c s]; [done|]. intros _ H.
  rewrite app_cons in H.
  apply lstrip_fix_cons in H. by apply lstrip_fix_cons.
Qed.

Lemma lstrip_fix_app s t :
  s ≠ "" → Str.lstrip s = s → Str.lstrip (s +:+ t) = s +:+ t.
Proof.
  destruct s as [|c s]; [done|]. intros _ H.
  rewrite app_cons.
  apply lstrip_fix_cons in H. by apply lstrip_fix_cons.
Qed.

(** The result of [strip] has no leading and no trailing white space. *)
Lemma strip_ends s :
  Str.lstrip (Str.strip s) = Str.strip s
  ∧ Str.lstrip (String.rev (Str.strip s)) = String.rev (Str.strip s).
Proof.
  unfold Str.strip, Str.rstrip. rewrite rev_involutive, lstrip_idem. split; [|done].
  set (t := Str.lstrip s).
  destruct (lstrip_suffix (String.rev t)) as [pre Hpre].
  set (u := Str.lstrip (String.rev t)) in *.
  destruct (decide (u = "")) as [-> | Hu]; [done|].
  assert (Ht : t = String.rev u +:+ String.rev pre).
  { by rewrite <- rev_app_distr, <- Hpre, rev_involutive. }
  apply (lstrip_app_fix _ (String.rev pre)).
  - intros E. apply Hu. by rewrite <- (rev_involutive u), E.
  - rewrite <- Ht. apply lstrip_idem.
Qed.

Lemma strip_idem s : Str.strip (Str.strip s) = Str.strip s.
Proof.
  destruct (strip_ends s) as [H1 H2].
  unfold Str.strip at 1. unfold Str.rstrip. by rewrite H1, H2, rev_involutive.
Qed.

Lemma strip_fix_ends s :
  Str.strip s = s → Str.lstrip s = s ∧ Str.lstrip (String.rev s) = String.rev s.
Proof. intros E. rewrite <- E. apply strip_ends. Qed.

Lemma normalise_idem s : normalise (normalise s) = normalise s.
Proof. unfold normalise. by rewrite strip_lower, lower_idem, strip_idem. Qed.

Lemma seed_from_normalise name timeline :
  seed_from (normalise name) (normalise timeline) = seed_from name timeline.
Proof.
  unfold seed_from. fold (normalise name) (normalise timeline).
  fold (normalise (normalise name)) (normalise (normalise timeline)).
  by rewrite !normalise_idem.
Qed.

(** Between two stripped strings, the separator keeps [strip] from removing
    anything. *)
Lemma strip_joined a b :
  Str.strip a = a → Str.strip b = b → Str.strip (a +:+ "::" +:+ b) = a +:+ "::" +:+ b.
Proof.
  intros Ha Hb. apply strip_fix_ends in Ha as [Ha _]. apply strip_fix_ends in Hb as [_ Hb].
  assert (H1 : Str.lstrip (a +:+ "::" +:+ b) = a +:+ "::" +:+ b).
  { destruct a as [|c a]; [done|]. apply lstrip_fix_app; done. }
  unfold Str.strip, Str.rstrip. rewrite H1.
  assert (H2 : Str.lstrip (String.rev (a +:+ "::" +:+ b)) = String.rev (a +:+ "::" +:+ b)).
  { rewrite !rev_app_distr. rewrite <- app_assoc_str.
    destruct (String.rev b) as [|c b']; [done|]. apply lstrip_fix_app; done. }
  by rewrite H2, rev_involutive.
Qed.

Section Seeds.
Context {RS : RandomSource}.

(** X12: the case of the name and of the timeline and the white space
    around them do not matter: the seeds, and with them the prediction, are
    those of the stripped, lower-cased strings. *)
Theorem pick_all_normalised name timeline lock salt :
  seed_from (normalise name) (normalise timeline) = seed_from name timeline
  ∧ rng_seed (normalise name) (normalise timeline) salt = rng_seed name timeline salt
  ∧ pick_all (normalise name) (normalise timeline) lock salt
    = pick_all name timeline lock salt.
Proof.
  split; [apply seed_from_normalise|].
  assert (E : rng_seed (normalise name) (normalise timeline) salt
              = rng_seed name timeline salt).
  { unfold rng_seed. by rewrite seed_from_normalise. }
  split; [exact E|]. unfold pick_all, rng_for. by rewrite E.
Qed.
End Seeds.

(** X13: the separator "::" of the seed key is not escaped: for ASCII
    strings without white space at their ends, the name [a::b] with the
    timeline [c] and the name [a] with the timeline [b::c] have the same
    seed. *)
Theorem seed_from_separator a b c :
  is_ascii a = true → is_ascii b = true → is_ascii c = true →
  Str.strip a = a → Str.strip b = b → Str.strip c = c →
  seed_from (a +:+ "::" +:+ b) c = seed_from a (b +:+ "::" +:+ c).
Proof.
  intros _ _ _ Ha Hb Hc. unfold seed_from.
  rewrite (strip_joined a b Ha Hb), (strip_joined b c Hb Hc), Ha, Hc.
  rewrite !lower_app, <- !app_assoc_str. reflexivity.
Qed.

(** ** Facts, explanation and narrative of a prediction *)

Lemma getitem_label_ok l (h : heap) s :
  i_label (h !!! l) = Some s → getitem_label l h = (Ok s, h).
Proof. intros E. unfold getitem_label. by rewrite bind_deref, E. Qed.

Lemma getitem_label_none l (h : heap) :
  i_label (h !!! l) = None → getitem_label l h = (Raise (KeyError "label"), h).
Proof. intros E. unfold getitem_label. by rewrite bind_deref, E. Qed.

Lemma explanation_ok p (h : heap) :
  (∀ d, has_id h (getattr p d)) →
  ∃ picks, length picks = 5%nat
    ∧ explanation p h = (Ok (picks ++ (rule_line <$> trace p)), h).
Proof.
  intros Hp.
  destruct (Hp Career) as [c Hc], (Hp Car) as [a Ha], (Hp House) as [o Ho],
    (Hp Relationship) as [r Hr], (Hp Fame) as [f Hf].
  cbn [getattr] in *. unfold explanation.
  erewrite bind_ok by (apply getitem_id_ok, Hc). rewrite bind_deref.
  erewrite bind_ok by (apply getitem_id_ok, Ha).
  erewrite bind_ok by (apply getitem_id_ok, Ho).
  erewrite bind_ok by (apply getitem_id_ok, Hr).
  erewrite bind_ok by (apply getitem_id_ok, Hf). rewrite bind_deref.
  eexists. split; [|reflexivity]. reflexivity.
Qed.

Lemma explanation_raises p (h : heap) d :
  i_id (h !!! getattr p d) = None → explanation p h = (Raise (KeyError "id"), h).
Proof.
  intros Hd. unfold explanation.
  destruct (i_id (h !!! career p)) as [c|] eqn:Hc;
    [erewrite bind_ok by (apply getitem_id_ok, Hc); rewrite bind_deref
    | by apply bind_raise, getitem_id_none].
  destruct (i_id (h !!! car p)) as [a|] eqn:Ha;
    [erewrite bind_ok by (apply getitem_id_ok, Ha)
    | by apply bind_raise, getitem_id_none].
  destruct (i_id (h !!! house p)) as [o|] eqn:Ho;
    [erewrite bind_ok by (apply getitem_id_ok, Ho)
    | by apply bind_raise, getitem_id_none].
  destruct (i_id (h !!! relationship p)) as [r|] eqn:Hr;
    [erewrite bind_ok by (apply getitem_id_ok, Hr)
    | by apply bind_raise, getitem_id_none].
  destruct (i_id (h !!! fame p)) as [f|] eqn:Hf;
    [| by apply bind_raise, getitem_id_none].
  destruct d; cbn [getattr] in Hd; congruence.
Qed.

Lemma copy_of_label d it :
  d = Relationship ∨ d = Fame → copy_of d it → is_Some (i_label it).
Proof.
  intros Hd (i & w & Hi & ->). destruct Hd as [-> | ->]; simpl in Hi;
    repeat (destruct i as [|i]; [simpl; eauto | try lia]).
Qed.

Section MicroFacts.
Context {RS : RandomSource}.
Variable set_order : gset string → list string.

Lemma options_from_tags (pool : gset string) (ts : list string) : ∀ acc,
  Forall (λ f, ∃ t fs, t ∈ pool ∧ MICRO_FACTS !! t = Some fs ∧ f ∈ fs) acc →
  (∀ t, t ∈ ts → t ∈ pool) →
  Forall (λ f, ∃ t fs, t ∈ pool ∧ MICRO_FACTS !! t = Some fs ∧ f ∈ fs)
    (foldl (λ options t, options ++ default [] (MICRO_FACTS !! t)) acc ts).
Proof.
  induction ts as [|t ts IH]; intros acc Hacc Hts; simpl; [done|].
  apply IH; [|intros t' Ht'; apply Hts; by right].
  apply Forall_app. split; [done|].
  destruct (MICRO_FACTS !! t) as [fs|] eqn:E; simpl; [|done].
  apply Forall_forall. intros f Hf. exists t, fs. split_and!; [|done..].
  apply Hts. by left.
Qed.

Lemma microfacts_for_ok p rng k (h : heap) :
  ∃ facts, microfacts_for set_order p rng k h = (Ok facts, h).
Proof.
  unfold microfacts_for. rewrite !bind_deref. cbv zeta.
  destruct (shuffle rng _). by eexists.
Qed.

(** X14: the facts come from the tags of the picks: when the iteration of a
    set yields only elements of the set, [microfacts_for] returns at most
    [k] facts, each a fact that [MICRO_FACTS] lists for a tag of the career,
    the house or the car; it never raises and leaves the store as it is. *)
Theorem microfacts_from_tags p rng k (h : heap) :
  (∀ s t, t ∈ set_order s → t ∈ s) →
  ∃ facts, microfacts_for set_order p rng k h = (Ok facts, h)
    ∧ (length facts ≤ k)%nat
    ∧ ∀ f, f ∈ facts →
        fact_of (tags_of (h !!! career p) ++ tags_of (h !!! house p)
                 ++ tags_of (h !!! car p)) f.
Proof.
  intros Horder. unfold microfacts_for. rewrite !bind_deref. cbv zeta.
  set (pool := _ ∪ _ ∪ _).
  set (options := foldl _ _ _).
  assert (Hopt : Forall (λ f, ∃ t fs, t ∈ pool ∧ MICRO_FACTS !! t = Some fs ∧ f ∈ fs)
                   options).
  { apply options_from_tags; [done | apply Horder]. }
  destruct (shuffle_go_invariant _ (length options - 1) rng options Hopt) as [Hs _].
  fold (shuffle rng options) in Hs.
  destruct (shuffle rng options) as [shuffled rng']. cbn [fst] in Hs.
  exists (take k shuffled). split_and!; [done | rewrite length_take; lia |].
  intros f Hf. apply elem_of_take in Hf as (i & Hf & _).
  rewrite Forall_lookup in Hs. destruct (Hs _ _ Hf) as (t & fs & Ht & Hfs & Hin).
  exists t, fs. split_and!; [|done..].
  subst pool. rewrite !elem_of_union, !elem_of_list_to_set in Ht.
  rewrite !elem_of_app.
  destruct Ht as [[Ht | Ht] | Ht]; [by left | by right; left | by right; right].
Qed.
End MicroFacts.

Section Explanations.
Context {RS : RandomSource}.

(** X15: [explanation] after [pick_all]: with the tables in the store and
    locks that hold dicts with an "id", the explanation of the prediction
    never raises and leaves the store as it is; it has five lines for the
    picks, then one line "rule → ..." for each entry of the trace, in order,
    which makes six to eleven lines. *)
Theorem explanation_of_prediction name timeline lock salt (h : heap) :
  tables_intact h → locks_ok h lock →
  ∃ p h' picks,
    pick_all name timeline lock salt h = (Ok p, h')
    ∧ explanation p h' = (Ok (picks ++ (rule_line <$> trace p)), h')
    ∧ length picks = 5%nat
    ∧ (1 ≤ length (trace p) ≤ 6)%nat.
Proof.
  intros Hh Hlock.
  destruct (pick_all_run name timeline lock salt h Hh Hlock)
    as (p & ext & E & Hp & _).
  destruct (explanation_ok p (h ++ ext)) as (picks & Hlen & Ex).
  { intros d. apply Hp. }
  exists p, (h ++ ext), picks. do 3 (split; [done|]).
  destruct (pick_all_shape name timeline lock salt h Hh Hlock)
    as (p0 & p' & ext' & E' & Hrest).
  rewrite E in E'. injection E' as <- _.
  destruct Hrest as (_ & _ & _ & _ & _ & _ & _ & _ & _ & _ & _ & ->).
  apply rules_trace_length.
Qed.

(** X16: [explanation] raises exactly when the dict of some domain has no
    "id": it then raises KeyError('id') and leaves the store as it is. *)
Theorem explanation_missing_id p (h : heap) :
  explanation p h = (Raise (KeyError "id"), h)
  ↔ ∃ d, i_id (h !!! getattr p d) = None.
Proof.
  split; [|intros [d Hd]; by eapply explanation_raises].
  intros E.
  destruct (i_id (h !!! getattr p Career)) as [c|] eqn:Hc; [|by exists Career].
  destruct (i_id (h !!! getattr p Car)) as [a|] eqn:Ha; [|by exists Car].
  destruct (i_id (h !!! getattr p House)) as [o|] eqn:Ho; [|by exists House].
  destruct (i_id (h !!! getattr p Relationship)) as [r|] eqn:Hr;
    [|by exists Relationship].
  destruct (i_id (h !!! getattr p Fame)) as [f|] eqn:Hf; [|by exists Fame].
  destruct (explanation_ok p h) as (picks & _ & E'); [|congruence].
  intros []; unfold has_id; eauto.
Qed.
End Explanations.

Section Texts.
Context {RS : RandomSource}.
Variable set_order : gset string → list string.
Variable wrap : string → string.

Lemma narrative_ok name p timeline (h : heap) :
  has_label h (relationship p) → has_label h (fame p) →
  ∃ text, narrative set_order wrap name p timeline h = (Ok text, h).
Proof.
  intros [r Hr] [f Hf]. unfold narrative. rewrite !bind_deref. cbv zeta.
  erewrite bind_ok by (apply getitem_label_ok, Hr).
  erewrite bind_ok by (apply getitem_label_ok, Hf).
  destruct (microfacts_for_ok set_order p (rng_for name timeline "facts") 2 h)
    as [facts E].
  erewrite bind_ok by exact E. by eexists.
Qed.

Lemma pick_all_labelled name timeline lock salt (h : heap) :
  tables_intact h → locks_ok h lock →
  (∀ l, lock !! "relationship" = Some l → has_label h l) →
  (∀ l, lock !! "fame" = Some l → has_label h l) →
  ∃ p ext,
    pick_all name timeline lock salt h = (Ok p, h ++ ext)
    ∧ wf_picks (h ++ ext) p
    ∧ has_label (h ++ ext) (relationship p)
    ∧ has_label (h ++ ext) (fame p).
Proof.
  intros Hh Hlock Hlr Hlf.
  destruct (pick_all_run name timeline lock salt h Hh Hlock)
    as (p & ext & E & Hwf & _).
  destruct (pick_all_shape name timeline lock salt h Hh Hlock)
    as (p0 & p' & ext' & E' & Hp0 & Hl1 & Hl2 & _ & Hr & _ & _ & _ & _ & _ & Hf & _).
  rewrite E in E'. injection E' as <- <-%app_inv_head.
  assert (Hlab : ∀ d, d = Relationship ∨ d = Fame → has_label h (getattr p0 d)).
  { intros d Hd. destruct (lock !! domain_name d) as [l|] eqn:El.
    - rewrite (Hl1 d l El). destruct Hd as [-> | ->]; eauto.
    - eapply copy_of_label; [exact Hd|]. by apply TRAITS_copy, Hl2. }
  exists p, ext. split_and!; [done | done | |].
  - unfold has_label. rewrite Hr, lookup_total_app_l by apply (Hp0 Relationship).
    apply (Hlab Relationship). by left.
  - unfold has_label. destruct (creator_or_founder _).
    + destruct Hf as [_ Hf]. eapply copy_of_label; [|exact Hf]. by right.
    + rewrite Hf, lookup_total_app_l by apply (Hp0 Fame). apply (Hlab Fame). by right.
Qed.

(** X17: [narrative] after [pick_all]: with the tables in the store and
    locks that hold dicts with an "id" (and a "label", for the relationship
    and the fame), the narrative of the prediction never raises and leaves
    the store as it is. *)
Theorem narrative_of_prediction name timeline lock salt (h : heap) :
  tables_intact h → locks_ok h lock →
  (∀ l, lock !! "relationship" = Some l → has_label h l) →
  (∀ l, lock !! "fame" = Some l → has_label h l) →
  ∃ p h' text,
    pick_all name timeline lock salt h = (Ok p, h')
    ∧ narrative set_order wrap name p timeline h' = (Ok text, h').
Proof.
  intros Hh Hlock Hlr Hlf.
  destruct (pick_all_labelled name timeline lock salt h Hh Hlock Hlr Hlf)
    as (p & ext & E & _ & Hr & Hf).
  destruct (narrative_ok name p timeline (h ++ ext) Hr Hf) as [text Et].
  by exists p, (h ++ ext), text.
Qed.

(** X18: a lock on the relationship that holds a dict with an "id" but no
    "label" passes [pick_all], and makes [narrative] raise
    KeyError('label') on the pick-set returned. *)
Theorem narrative_lock_without_label name timeline lock salt (h : heap) l :
  tables_intact h → locks_ok h lock →
  lock !! "relationship" = Some l → i_label (h !!! l) = None →
  ∃ p h',
    pick_all name timeline lock salt h = (Ok p, h')
    ∧ narrative set_order wrap name p timeline h' = (Raise (KeyError "label"), h').
Proof.
  intros Hh Hlock Hl Hlab.
  destruct (pick_all_shape name timeline lock salt h Hh Hlock)
    as (p0 & p & ext & E & Hp0 & Hl1 & _ & _ & Hr & _).
  exists p, (h ++ ext). split; [done|].
  unfold narrative. rewrite !bind_deref. cbv zeta.
  apply bind_raise, getitem_label_none.
  pose proof (Hl1 Relationship l Hl) as Hrel. cbn [getattr] in Hrel.
  rewrite Hr, Hrel.
  rewrite lookup_total_app_l; [done|]. by destruct (Hlock _ _ Hl).
Qed.
End Texts.

(** ** The Monte Carlo tally as a frequency table *)

Lemma entry_bump (c : gmap string Z) k key m :
  c !! key = entry m →
  bump k c !! key = entry (m + (if bool_decide (k = key) then 1 else 0)).
Proof.
  intros Hc. unfold bump. case_bool_decide as Hk.
  - subst k. rewrite lookup_insert_eq, Hc.
    replace (m + 1)%nat with (S m) by lia. destruct m; simpl; f_equal; lia.
  - rewrite lookup_insert_ne by done. by rewrite Nat.add_0_r.
Qed.

Section Frequencies.
Context {RS : RandomSource}.

Lemma occurrences_snoc name timeline trials i d key :
  occurrences name timeline (trials ++ [i]) d key
  = (occurrences name timeline trials d key
     + (if bool_decide (trial_id name timeline i d = key) then 1 else 0))%nat.
Proof.
  unfold occurrences. rewrite filter_app, length_app. f_equal.
  rewrite filter_cons, filter_nil.
  destruct (decide (trial_id name timeline i d = key)) as [E | E].
  - by rewrite bool_decide_true.
  - by rewrite bool_decide_false.
Qed.

Lemma tally_all_bumps p (h : heap) (ids : Domain → string) ds : ∀ counts,
  (∀ d, i_id (h !!! getattr p d) = Some (ids d)) →
  (∀ d, is_Some (counts !! domain_name d)) → NoDup ds →
  ∃ counts', tally_all counts p ds h = (Ok counts', h)
    ∧ ∀ d, counts' !! domain_name d
           = if bool_decide (d ∈ ds) then bump (ids d) <$> counts !! domain_name d
             else counts !! domain_name d.
Proof.
  induction ds as [|d0 ds IH]; intros counts Hid Hk Hnd.
  - exists counts. split; [done|]. intros d. by rewrite bool_decide_false by set_solver.
  - apply NoDup_cons in Hnd as [Hd0 Hnd]. cbn [tally_all].
    erewrite bind_ok by (apply getitem_id_ok, Hid).
    unfold tally. destruct (Hk d0) as [c0 Hc0]. rewrite Hc0.
    destruct (IH (<[domain_name d0 := bump (ids d0) c0]> counts) Hid) as (c' & E & Hc');
      [| done |].
    { intros d. rewrite lookup_insert. case_decide; eauto. }
    exists c'. split; [exact E|]. intros d. rewrite Hc'.
    destruct (decide (d = d0)) as [-> | Hne].
    + rewrite (bool_decide_false (d0 ∈ ds)) by done.
      rewrite bool_decide_true by (by left).
      by rewrite lookup_insert_eq, Hc0.
    + rewrite lookup_insert_ne by (intros E'; by apply domain_name_inj in E').
      destruct (decide (d ∈ ds)) as [Hin | Hnin].
      * rewrite (bool_decide_true (d ∈ ds)) by done.
        by rewrite bool_decide_true by (by right).
      * rewrite (bool_decide_false (d ∈ ds)) by done.
        by rewrite bool_decide_false by (by intros [?|?]%elem_of_cons).
Qed.

Lemma trial_id_prediction name timeline i d :
  trial_id name timeline i d
  = default "" (i_id ((prediction name timeline ("mc:" +:+ pretty (Z.of_nat i))).1
                      !!! domain_index d)).
Proof.
  unfold trial_id.
  destruct (pick_all_prediction name timeline ("mc:" +:+ pretty (Z.of_nat i))
              TRAITS_heap) as (p & h & -> & <-); [by exists []; rewrite app_nil_r|].
  by destruct d.
Qed.

Lemma pick_all_trial name timeline i (h : heap) :
  tables_intact h →
  ∃ p ext,
    pick_all name timeline ∅ ("mc:" +:+ pretty (Z.of_nat i)) h = (Ok p, h ++ ext)
    ∧ ∀ d, i_id ((h ++ ext) !!! getattr p d) = Some (trial_id name timeline i d).
Proof.
  intros Hh.
  destruct (pick_all_run name timeline ∅ ("mc:" +:+ pretty (Z.of_nat i)) h)
    as (p & ext & E & Hwf & _); [done | by intros ?? |].
  destruct (pick_all_prediction name timeline ("mc:" +:+ pretty (Z.of_nat i)) h Hh)
    as (p' & h' & E' & P).
  rewrite E in E'. injection E' as <- <-.
  exists p, ext. split; [done|]. intros d.
  destruct (Hwf d) as [_ [s Hs]]. rewrite Hs. f_equal.
  rewrite trial_id_prediction, <- P. cbn [fst].
  by destruct d; cbn [domain_index fmap list_fmap DOMAINS lookup_total list_lookup_total];
    rewrite Hs.
Qed.

Lemma monte_carlo_loop_frequencies name timeline trials : ∀ done counts (h : heap),
  tables_intact h →
  (∀ d, ∃ c, counts !! domain_name d = Some c
     ∧ ∀ key, c !! key = entry (occurrences name timeline done d key)) →
  ∃ counts' h',
    monte_carlo_loop name timeline trials counts h = (Ok counts', h')
    ∧ ∀ d, ∃ c, counts' !! domain_name d = Some c
        ∧ ∀ key, c !! key = entry (occurrences name timeline (done ++ trials) d key).
Proof.
  induction trials as [|i trials IH]; intros done counts h Hh Hinv.
  - exists counts, h. rewrite app_nil_r. by split.
  - cbn [monte_carlo_loop].
    destruct (pick_all_trial name timeline i h Hh) as (p & ext & E & Hid).
    erewrite bind_ok by exact E.
    destruct (tally_all_bumps p (h ++ ext) (trial_id name timeline i) DOMAINS counts)
      as (c1 & E1 & Hc1); [done | | apply NoDup_DOMAINS |].
    { intros d. destruct (Hinv d) as (c & -> & _). eauto. }
    erewrite bind_ok by exact E1.
    destruct (IH (done ++ [i]) c1 (h ++ ext)) as (c2 & h2 & E2 & Hc2);
      [by apply tables_intact_app | |].
    { intros d. destruct (Hinv d) as (c & Hc & Hkeys).
      exists (bump (trial_id name timeline i d) c). split.
      - rewrite Hc1, bool_decide_true by apply elem_of_DOMAINS. by rewrite Hc.
      - intros key. rewrite occurrences_snoc. by apply entry_bump. }
    exists c2, h2. split; [exact E2|].
    intros d. rewrite (cons_middle i done trials), app_assoc. apply Hc2.
Qed.

(** X19: the tally of [monte_carlo] is the frequency table of the
    predictions with the salts mc:0, mc:1, ..., mc:(n-1): in every domain,
    an id has an entry exactly when some trial's prediction has it, and the
    entry is the number of these trials. *)
Theorem monte_carlo_frequencies name timeline n (ext : heap) :
  ∃ counts h',
    monte_carlo name timeline n (TRAITS_heap ++ ext) = (Ok counts, h')
    ∧ ∀ d, ∃ c, counts !! domain_name d = Some c
        ∧ ∀ key, c !! key
                 = entry (occurrences name timeline (seq 0 (Z.to_nat n)) d key).
Proof.
  unfold monte_carlo.
  apply (monte_carlo_loop_frequencies name timeline (seq 0 (Z.to_nat n)) []).
  - by exists ext.
  - intros d. exists ∅. split; [by destruct d|]. intros key. apply lookup_empty.
Qed.
End Frequencies.

(** ** What a reroll keeps *)

Section Rerolls.
Context {RS : RandomSource}.

(** X20: what a reroll keeps and what it picks again, whatever the target
    domain is: the car and the house of the result are always new objects,
    copies of items of their tables but for the weight, and never those of
    the base pick-set; the career is kept unless it is the target; the fame,
    when it is not the target, is kept unless the career is a creator or
    founder career, and is then not that of the base pick-set. *)
Theorem reroll_repicks_car_and_house name timeline domain base (h : heap) :
  tables_intact h → wf_picks h base →
  ∃ p h', reroll_section name timeline domain base h = (Ok p, h')
    ∧ car p ≠ car base ∧ house p ≠ house base
    ∧ copy_of Car (h' !!! car p) ∧ copy_of House (h' !!! house p)
    ∧ (domain ≠ "career" → career p = career base)
    ∧ (domain ≠ "fame" →
       if creator_or_founder (h' !!! career p) then fame p ≠ fame base
       else fame p = fame base).
Proof.
  intros Hh Hwf. unfold reroll_section.
  edestruct pick_all_shape
    as (p0 & p & ext & E & Hp0 & Hl1 & _ & Hc & _ & Hca & Hho & _ & Hcc & Hhc & Hf & _);
    [exact Hh | by apply (reroll_locks_ok domain) |].
  exists p, (h ++ ext). split; [exact E|].
  pose proof (Hwf Car) as [Hcar _]. pose proof (Hwf House) as [Hhouse _].
  pose proof (Hwf Fame) as [Hfame _]. cbn [getattr] in *.
  split_and!; [lia | lia | done | done | |].
  - intros Hd. rewrite Hc. apply (Hl1 Career).
    apply (reroll_locks domain base Career). by apply not_eq_sym.
  - intros Hd. rewrite Hc, lookup_total_app_l by apply (Hp0 Career).
    destruct (creator_or_founder _); [lia|].
    rewrite Hf. apply (Hl1 Fame).
    apply (reroll_locks domain base Fame). by apply not_eq_sym.
Qed.
End Rerolls.

Lemma reroll_repicks_car_and_house_witness :
  ∃ p h',
    reroll_section (RS := counter_source) "Ada" "prime" "career" sample_picks TRAITS_heap
      = (Ok p, h')
    ∧ car p ≠ 8%nat ∧ house p ≠ 13%nat
    ∧ copy_of Car (h' !!! car p) ∧ copy_of House (h' !!! house p)
    ∧ ("career" ≠ "career" → career p = 0%nat)
    ∧ ("career" ≠ "fame" →
       if creator_or_founder (h' !!! career p) then fame p ≠ 23%nat
       else fame p = 23%nat).
Proof.
  apply (reroll_repicks_car_and_house (RS := counter_source) "Ada" "prime" "career"
           sample_picks TRAITS_heap tables_intact_initial wf_sample_picks).
Defined.

(** ** From the first prediction to the tally *)

Section Pipeline.
Context {RS : RandomSource}.
Variable set_order : gset string → list string.
Variable wrap : string → string.

Lemma reroll_lock_of_base domain base key l :
  (list_to_map ((λ d, (domain_name d, getattr base d))
                  <$> filter (λ d, domain_name d ≠ domain) DOMAINS)
     : gmap string loc) !! key = Some l →
  ∃ d, key = domain_name d ∧ l = getattr base d.
Proof.
  intros Hl. apply elem_of_list_to_map_2 in Hl.
  apply list_elem_of_fmap in Hl as (d & [= -> ->] & _). by exists d.
Qed.

Lemma reroll_or_base_labelled name timeline reroll base (h : heap) :
  tables_intact h → wf_picks h base →
  has_label h (relationship base) → has_label h (fame base) →
  ∃ p ext,
    reroll_or_base name timeline reroll base h = (Ok p, h ++ ext)
    ∧ wf_picks (h ++ ext) p
    ∧ has_label (h ++ ext) (relationship p)
    ∧ has_label (h ++ ext) (fame p).
Proof.
  intros Hh Hwf Hr Hf.
  assert (Hbase : ∃ p ext, (mret base : M Picks) h = (Ok p, h ++ ext)
            ∧ wf_picks (h ++ ext) p
            ∧ has_label (h ++ ext) (relationship p)
            ∧ has_label (h ++ ext) (fame p)).
  { exists base, []. by rewrite app_nil_r. }
  unfold reroll_or_base. destruct reroll as [domain|]; [|exact Hbase].
  case_bool_decide; [exact Hbase|]. unfold reroll_section.
  apply pick_all_labelled; [done | by apply reroll_locks_ok | |].
  - intros l Hl. apply reroll_lock_of_base in Hl as (d & Hd & ->).
    by destruct d.
  - intros l Hl. apply reroll_lock_of_base in Hl as (d & Hd & ->).
    by destruct d.
Qed.

(** X21: the computation of [run], start to end, for a name and a timeline
    that have a UTF-8 encoding (the strings of the model): in a store that
    holds the tables, the first prediction, the reroll of any section (or
    none), the narrative, the explanation and the Monte Carlo tally all
    return, and the tables are still in the store at the end. *)
Theorem pipeline_returns name timeline reroll n (h : heap) :
  tables_intact h →
  ∃ base h1 p h2 story lines counts h3,
    pick_all name timeline ∅ "" h = (Ok base, h1)
    ∧ reroll_or_base name timeline reroll base h1 = (Ok p, h2)
    ∧ narrative set_order wrap name p timeline h2 = (Ok story, h2)
    ∧ monte_carlo name timeline n h2 = (Ok counts, h3)
    ∧ explanation p h3 = (Ok lines, h3)
    ∧ tables_intact h3.
Proof.
  intros Hh.
  destruct (pick_all_labelled name timeline ∅ "" h Hh)
    as (base & ext1 & E1 & Hwf1 & Hr1 & Hf1);
    [by intros ?? | by intros ? | by intros ? |].
  assert (Hh1 : tables_intact (h ++ ext1)) by by apply tables_intact_app.
  destruct (reroll_or_base_labelled name timeline reroll base (h ++ ext1)
              Hh1 Hwf1 Hr1 Hf1) as (p & ext2 & E2 & Hwf2 & Hr2 & Hf2).
  set (h2 := (h ++ ext1) ++ ext2) in *.
  assert (Hh2 : tables_intact h2) by by apply tables_intact_app.
  destruct (narrative_ok set_order wrap name p timeline h2 Hr2 Hf2) as [story E3].
  destruct (monte_carlo_run name timeline n h2 Hh2) as (counts & ext3 & E4 & _).
  destruct (explanation_ok p (h2 ++ ext3)) as (picks & _ & E5).
  { intros d. destruct (Hwf2 d) as [Hlt Hid]. by apply has_id_app. }
  exists base, (h ++ ext1), p, h2, story, (picks ++ (rule_line <$> trace p)), counts,
    (h2 ++ ext3).
  split_and!; [done.. | by apply tables_intact_app].
Qed.
End Pipeline.

Lemma pipeline_returns_witness :
  ∃ base h1 p h2 story lines counts h3,
    pick_all (RS := counter_source) "Ada" "prime" ∅ "" TRAITS_heap = (Ok base, h1)
    ∧ reroll_or_base (RS := counter_source) "Ada" "prime" (Some "car") base h1 = (Ok p, h2)
    ∧ narrative (RS := counter_source) ascending_order id "Ada" p "prime" h2
      = (Ok story, h2)
    ∧ monte_carlo (RS := counter_source) "Ada" "prime" 3 h2 = (Ok counts, h3)
    ∧ explanation p h3 = (Ok lines, h3)
    ∧ tables_intact h3.
Proof.
  apply (pipeline_returns (RS := counter_source) ascending_order id
           "Ada" "prime" (Some "car") 3 TRAITS_heap tables_intact_initial).
Defined.

(** ** Further examples *)

Lemma locks_ok_empty (h : heap) : locks_ok h ∅.
Proof. intros key l H. by rewrite lookup_empty in H. Qed.

Lemma locks_ok_singleton (h : heap) key l :
  (l < length h)%nat → has_id h l → locks_ok h {[key := l]}.
Proof. intros Hl Hid key' l' H. by apply lookup_singleton_Some in H as [<- <-]. Qed.

Lemma ascending_order_sound (s : gset string) t : t ∈ ascending_order s → t ∈ s.
Proof. apply elem_of_elements. Qed.



Lemma pick_all_empty_locks_witness :
  pick_all (RS := counter_source) "Ada" "prime" {["car" := 28%nat]} ""
           (TRAITS_heap ++ [empty_item])
  = pick_all (RS := counter_source) "Ada" "prime" ∅ "" (TRAITS_heap ++ [empty_item]).
Proof.
  apply (pick_all_empty_locks (RS := counter_source) "Ada" "prime" {["car" := 28%nat]} ""
           (TRAITS_heap ++ [empty_item])).
  intros key l H. apply lookup_singleton_Some in H as [_ <-]. reflexivity.
Defined.

Lemma car_and_house_always_repicked_witness :
  ∃ p h', pick_all (RS := counter_source) "Ada" "prime"
                   {["car" := 8%nat; "house" := 13%nat]} "" TRAITS_heap = (Ok p, h')
    ∧ (28 ≤ car p < length h')%nat
    ∧ (28 ≤ house p < length h')%nat
    ∧ car p ≠ house p
    ∧ copy_of Car (h' !!! car p)
    ∧ copy_of House (h' !!! house p).
Proof.
  apply (car_and_house_always_repicked (RS := counter_source) "Ada" "prime"
           {["car" := 8%nat; "house" := 13%nat]} "" TRAITS_heap tables_intact_initial).
  intros key l H. apply lookup_insert_Some in H as [[_ <-] | [_ H]].
  - split; [simpl; lia | eexists; reflexivity].
  - apply lookup_singleton_Some in H as [_ <-].
    split; [simpl; lia | eexists; reflexivity].
Defined.

Lemma fame_lock_kept_unless_creator_witness :
  ∃ p h', pick_all (RS := counter_source) "Ada" "prime" {["fame" := 23%nat]} ""
                   TRAITS_heap = (Ok p, h')
    ∧ if creator_or_founder (h' !!! career p)
      then (28 ≤ fame p < length h')%nat ∧ copy_of Fame (h' !!! fame p)
      else fame p = 23%nat.
Proof.
  apply (fame_lock_kept_unless_creator (RS := counter_source) "Ada" "prime"
           {["fame" := 23%nat]} "" TRAITS_heap 23%nat tables_intact_initial).
  - apply locks_ok_singleton; [simpl; lia | eexists; reflexivity].
  - reflexivity.
Defined.

Lemma picks_come_from_their_tables_witness :
  ∃ p h', pick_all (RS := counter_source) "Ada" "prime" ∅ "" TRAITS_heap = (Ok p, h')
    ∧ ∀ d, (∅ : gmap string loc) !! domain_name d = None → copy_of d (h' !!! getattr p d).
Proof.
  apply (picks_come_from_their_tables (RS := counter_source) "Ada" "prime" ∅ ""
           TRAITS_heap tables_intact_initial (locks_ok_empty _)).
Defined.

Lemma apply_rules_trace_witness :
  ∃ p' rng' h',
    apply_rules (RS := counter_source) sample_picks 0 TRAITS_heap = (Ok (p', rng'), h')
    ∧ trace p' = [] ++ rules_trace false true false (city_of (h' !!! car p')) false.
Proof.
  apply (apply_rules_trace (RS := counter_source) sample_picks 0 TRAITS_heap
           tables_intact_initial wf_sample_picks).
Defined.

Lemma apply_rules_weights_positive_witness :
  ∃ p' rng' h',
    apply_rules (RS := counter_source) sample_picks 0 TRAITS_heap = (Ok (p', rng'), h')
    ∧ ∀ l, (28 ≤ l < length h')%nat → weight_positive (h' !!! l).
Proof.
  apply (apply_rules_weights_positive (RS := counter_source) sample_picks 0 TRAITS_heap
           tables_intact_initial wf_sample_picks).
Defined.

Lemma weighted_choice_positive_weight_witness :
  ∃ it w, weighted_choice (RS := counter_source) 3 (TRAITS Car) TRAITS_heap
          = (Ok (it, 4), TRAITS_heap)
    ∧ it ∈ TRAITS Car ∧ i_weight (TRAITS_heap !!! it) = Some w ∧ 0 < w.
Proof.
  apply (weighted_choice_positive_weight (RS := counter_source) 3 (TRAITS Car) TRAITS_heap).
  - split; [vm_compute; reflexivity | vm_compute; discriminate].
  - vm_compute. reflexivity.
  - vm_compute. discriminate.
Defined.

Lemma weighted_choice_zero_draw_witness :
  weighted_choice (RS := counter_source) 0 (TRAITS Car) TRAITS_heap
  = (Ok (8%nat, 1), TRAITS_heap).
Proof.
  apply (weighted_choice_zero_draw (RS := counter_source) 0 8%nat [9; 10; 11; 12]%nat
           TRAITS_heap).
  - split; [vm_compute; reflexivity | vm_compute; discriminate].
  - vm_compute. reflexivity.
Defined.

Lemma seed_from_separator_witness :
  seed_from ("ada" +:+ "::" +:+ "old") "prime" = seed_from "ada" ("old" +:+ "::" +:+ "prime").
Proof. apply (seed_from_separator "ada" "old" "prime"); reflexivity. Defined.

Lemma microfacts_from_tags_witness :
  ∃ facts,
    microfacts_for (RS := counter_source) ascending_order sample_picks 0 2 TRAITS_heap
      = (Ok facts, TRAITS_heap)
    ∧ (length facts ≤ 2)%nat
    ∧ ∀ f, f ∈ facts →
        fact_of (tags_of (TRAITS_heap !!! career sample_picks)
                 ++ tags_of (TRAITS_heap !!! house sample_picks)
                 ++ tags_of (TRAITS_heap !!! car sample_picks)) f.
Proof.
  apply (microfacts_from_tags (RS := counter_source) ascending_order sample_picks 0
           2%nat TRAITS_heap).
  intros s t. apply ascending_order_sound.
Defined.

Lemma explanation_of_prediction_witness :
  ∃ p h' picks,
    pick_all (RS := counter_source) "Ada" "prime" ∅ "" TRAITS_heap = (Ok p, h')
    ∧ explanation p h' = (Ok (picks ++ (rule_line <$> trace p)), h')
    ∧ length picks = 5%nat
    ∧ (1 ≤ length (trace p) ≤ 6)%nat.
Proof.
  apply (explanation_of_prediction (RS := counter_source) "Ada" "prime" ∅ ""
           TRAITS_heap tables_intact_initial (locks_ok_empty _)).
Defined.

Lemma narrative_of_prediction_witness :
  ∃ p h' text,
    pick_all (RS := counter_source) "Ada" "prime" ∅ "" TRAITS_heap = (Ok p, h')
    ∧ narrative (RS := counter_source) ascending_order id "Ada" p "prime" h'
      = (Ok text, h').
Proof.
  apply (narrative_of_prediction (RS := counter_source) ascending_order id "Ada" "prime"
           ∅ "" TRAITS_heap tables_intact_initial (locks_ok_empty _)).
  - intros l H. by rewrite lookup_empty in H.
  - intros l H. by rewrite lookup_empty in H.
Defined.

Lemma narrative_lock_without_label_witness :
  ∃ p h',
    pick_all (RS := counter_source) "Ada" "prime" {["relationship" := 28%nat]} ""
             (TRAITS_heap ++ [unlabelled_item]) = (Ok p, h')
    ∧ narrative (RS := counter_source) ascending_order id "Ada" p "prime" h'
      = (Raise (KeyError "label"), h').
Proof.
  apply (narrative_lock_without_label (RS := counter_source) ascending_order id "Ada"
           "prime" {["relationship" := 28%nat]} "" (TRAITS_heap ++ [unlabelled_item])
           28%nat).
  - by exists [unlabelled_item].
  - apply locks_ok_singleton; [simpl; lia | eexists; reflexivity].
  - reflexivity.
  - reflexivity.
Defined.
